(** * JPEG structural analysis (jpegsnoop/jpeg_snoop_cli.py)

    A shallow embedding of the marker scanner, the segment decoders, the
    quantization-table digest, the signature lookup and the tamper heuristic
    of [jpeg_snoop_cli.py], followed by the properties the specification
    states about them.

    Conventions.  A Python [bytes] object is a [list byte]; a Python [int]
    read out of the stream is a [Z]; offsets and lengths (never negative in
    the source) are [nat]; a [str] is a [string].  A function that can raise
    returns a [result]; the exception classes are the constructors of [exn].
    Loops that are not structurally recursive take a fuel argument and
    answer [OutOfFuel] when it runs out; the top-level functions supply
    enough fuel, and this is proved. *)

From Stdlib Require Import ZArith List Lia Bool Sorted Permutation.
From Stdlib Require Import Strings.String Strings.Ascii Strings.Byte.
From stdpp Require Import base option list strings gmap.

Local Open Scope string_scope.
Local Open Scope list_scope.
Local Open Scope Z_scope.

(** ** Exceptions and results *)

(** The exceptions the analysed code can raise: its own [JpegParseError]
    with its message, and the built-in ones of the operations it calls. *)
Inductive exn : Type :=
  | JpegParseError (msg : string)
  | ValueError
  | StructError
  | IndexError.

Inductive result (A : Type) : Type :=
  | Ok (a : A)
  | Raise (e : exn)
  | OutOfFuel.

Arguments Ok {A} a.
Arguments Raise {A} e.
Arguments OutOfFuel {A}.

Definition result_bind {A B : Type} (m : result A) (k : A -> result B) : result B :=
  match m with
  | Ok a => k a
  | Raise e => Raise e
  | OutOfFuel => OutOfFuel
  end.

Notation "'let*' x ':=' m 'in' k" := (result_bind m (fun x => k))
  (at level 10, x pattern, m at level 100, k at level 200).

Fixpoint result_map {A B : Type} (f : A -> result B) (l : list A) : result (list B) :=
  match l with
  | [] => Ok []
  | x :: l' =>
      let* y := f x in
      let* ys := result_map f l' in
      Ok (y :: ys)
  end.

(** ** Python [bytes] *)

Definition int_of_byte (b : byte) : Z := Z.of_N (Byte.to_N b).

Definition byte_of_int (v : Z) : option byte :=
  if (0 <=? v) && (v <? 256) then Byte.of_N (Z.to_N v) else None.

(** [data[i]] for an offset [i >= 0]. *)
Definition byte_at (data : list byte) (i : nat) : result Z :=
  match data !! i with
  | Some b => Ok (int_of_byte b)
  | None => Raise IndexError
  end.

(** [data[lo:hi]] for [0 <= lo]: a slice is cut short at the end of the
    data, and is empty when [hi <= lo]; it never raises. *)
Definition slice {A : Type} (data : list A) (lo hi : nat) : list A :=
  take (hi - lo) (drop lo data).

(** [bytes.startswith]. *)
Fixpoint startswith (s prefix : list byte) : bool :=
  match prefix, s with
  | [], _ => true
  | p :: prefix', c :: s' => if Byte.eqb c p then startswith s' prefix' else false
  | _ :: _, [] => false
  end.

(** [bytes(values)]: every value must be in [range(256)]. *)
Definition bytes_of_ints (values : list Z) : result (list byte) :=
  result_map (fun v => match byte_of_int v with
                       | Some b => Ok b
                       | None => Raise ValueError
                       end) values.

(** [struct.pack(">H", value)]: two bytes, most significant first. *)
Definition pack_H (value : Z) : result (list byte) :=
  match byte_of_int (Z.shiftr value 8), byte_of_int (Z.land value 255) with
  | Some hi, Some lo => if 0 <=? value then Ok [hi; lo] else Raise StructError
  | _, _ => Raise StructError
  end.

(** [struct.unpack(">H", b)[0]] for a two-byte [b]. *)
Definition unpack_H (b : list byte) : result Z :=
  match b with
  | [hi; lo] => Ok (Z.lor (Z.shiftl (int_of_byte hi) 8) (int_of_byte lo))
  | _ => Raise StructError
  end.

(** [list(struct.unpack(">64H", chunk))] for a chunk of 128 bytes; the
    caller has checked the length. *)
Fixpoint unpack_H_list (chunk : list byte) : list Z :=
  match chunk with
  | hi :: lo :: chunk' =>
      Z.lor (Z.shiftl (int_of_byte hi) 8) (int_of_byte lo) :: unpack_H_list chunk'
  | _ => []
  end.

(** ** [hashlib.md5] (RFC 1321) and [str.upper] *)

Module hashlib.

Definition w32 (x : Z) : Z := x mod 2 ^ 32.

Definition rotl (x c : Z) : Z :=
  Z.lor (w32 (Z.shiftl x c)) (Z.shiftr x (32 - c)).

Definition not32 (x : Z) : Z := Z.lxor x 0xFFFFFFFF.

Definition K : list Z :=
  [ 0xd76aa478; 0xe8c7b756; 0x242070db; 0xc1bdceee; 0xf57c0faf; 0x4787c62a;
    0xa8304613; 0xfd469501; 0x698098d8; 0x8b44f7af; 0xffff5bb1; 0x895cd7be;
    0x6b901122; 0xfd987193; 0xa679438e; 0x49b40821; 0xf61e2562; 0xc040b340;
    0x265e5a51; 0xe9b6c7aa; 0xd62f105d; 0x02441453; 0xd8a1e681; 0xe7d3fbc8;
    0x21e1cde6; 0xc33707d6; 0xf4d50d87; 0x455a14ed; 0xa9e3e905; 0xfcefa3f8;
    0x676f02d9; 0x8d2a4c8a; 0xfffa3942; 0x8771f681; 0x6d9d6122; 0xfde5380c;
    0xa4beea44; 0x4bdecfa9; 0xf6bb4b60; 0xbebfbc70; 0x289b7ec6; 0xeaa127fa;
    0xd4ef3085; 0x04881d05; 0xd9d4d039; 0xe6db99e5; 0x1fa27cf8; 0xc4ac5665;
    0xf4292244; 0x432aff97; 0xab9423a7; 0xfc93a039; 0x655b59c3; 0x8f0ccc92;
    0xffeff47d; 0x85845dd1; 0x6fa87e4f; 0xfe2ce6e0; 0xa3014314; 0x4e0811a1;
    0xf7537e82; 0xbd3af235; 0x2ad7d2bb; 0xeb86d391 ].

Definition shifts : list Z :=
  [ 7; 12; 17; 22; 7; 12; 17; 22; 7; 12; 17; 22; 7; 12; 17; 22;
    5; 9; 14; 20; 5; 9; 14; 20; 5; 9; 14; 20; 5; 9; 14; 20;
    4; 11; 16; 23; 4; 11; 16; 23; 4; 11; 16; 23; 4; 11; 16; 23;
    6; 10; 15; 21; 6; 10; 15; 21; 6; 10; 15; 21; 6; 10; 15; 21 ].

Definition state : Type := Z * Z * Z * Z.

Definition init : state := (0x67452301, 0xefcdab89, 0x98badcfe, 0x10325476).

(** The round function and the index of the message word of operation [i]. *)
Definition mix (i : nat) (b c d : Z) : Z * nat :=
  if (i <? 16)%nat then (Z.lor (Z.land b c) (Z.land (not32 b) d), i)
  else if (i <? 32)%nat then
    (Z.lor (Z.land d b) (Z.land (not32 d) c), (5 * i + 1) mod 16)%nat
  else if (i <? 48)%nat then (Z.lxor (Z.lxor b c) d, (3 * i + 5) mod 16)%nat
  else (Z.lxor c (Z.lor b (not32 d)), (7 * i) mod 16)%nat.

Definition operation (M : list Z) (s : state) (i : nat) : state :=
  let '(a, b, c, d) := s in
  let '(f, g) := mix i b c d in
  let f' := w32 (f + a + nth i K 0 + nth g M 0) in
  (d, w32 (b + rotl f' (nth i shifts 0)), b, c).

(** Sixteen little-endian 32-bit words of a 64-byte block. *)
Fixpoint words (block : list Z) : list Z :=
  match block with
  | b0 :: b1 :: b2 :: b3 :: block' =>
      (b0 + 256 * b1 + 65536 * b2 + 16777216 * b3) :: words block'
  | _ => []
  end.

Definition compress (s : state) (block : list Z) : state :=
  let '(a0, b0, c0, d0) := s in
  let '(a, b, c, d) := fold_left (operation (words block)) (seq 0 64) s in
  (w32 (a0 + a), w32 (b0 + b), w32 (c0 + c), w32 (d0 + d)).

Fixpoint blocks (n : nat) (msg : list Z) (s : state) : state :=
  match n with
  | O => s
  | S n' => blocks n' (drop 64 msg) (compress s (take 64 msg))
  end.

Definition le_bytes (n : nat) (x : Z) : list Z :=
  map (fun k => Z.shiftr x (8 * Z.of_nat k) mod 256) (seq 0 n).

Definition pad (msg : list Z) : list Z :=
  let n := Z.of_nat (length msg) in
  msg ++ [128] ++ repeat 0 (Z.to_nat ((55 - n) mod 64)) ++ le_bytes 8 (8 * n mod 2 ^ 64).

(** The 16 bytes of [hashlib.md5(raw).digest()]. *)
Definition digest (raw : list byte) : list Z :=
  let padded := pad (map int_of_byte raw) in
  let '(a, b, c, d) := blocks (length padded / 64)%nat padded init in
  le_bytes 4 a ++ le_bytes 4 b ++ le_bytes 4 c ++ le_bytes 4 d.

Definition hex_digit (lower : bool) (v : Z) : ascii :=
  if v <? 10 then ascii_of_N (Z.to_N (48 + v))
  else ascii_of_N (Z.to_N ((if lower then 87 else 55) + v)).

(** Two hexadecimal digits per byte. *)
Fixpoint hex (lower : bool) (bs : list Z) : string :=
  match bs with
  | [] => EmptyString
  | b :: bs' =>
      String (hex_digit lower (b / 16))
        (String (hex_digit lower (b mod 16)) (hex lower bs'))
  end.

(** [hashlib.md5(raw).hexdigest()]: lower-case hexadecimal. *)
Definition hexdigest (raw : list byte) : string := hex true (digest raw).

End hashlib.

(** [str.upper] on ASCII text. *)
Definition upper_char (c : ascii) : ascii :=
  let n := N_of_ascii c in
  if ((97 <=? n) && (n <=? 122))%N then ascii_of_N (n - 32) else c.

Fixpoint upper (s : string) : string :=
  match s with
  | EmptyString => EmptyString
  | String c s' => String (upper_char c) (upper s')
  end.

(** [a == b] on [bytes]. *)
Fixpoint bytes_eqb (a b : list byte) : bool :=
  match a, b with
  | [], [] => true
  | x :: a', y :: b' => Byte.eqb x y && bytes_eqb a' b'
  | _, _ => false
  end.

(** Truth value of an [int]. *)
Definition truthy (v : Z) : bool := negb (v =? 0).

(** ** The data classes *)

Module QuantTable.

Record t : Type := Build {
  table_id : Z;
  precision : Z;
  values : list Z
}.

(** The [md5] property.  [bytes(values)] and [struct.pack] raise on a
    value outside their range. *)
Definition md5 (self : t) : result string :=
  let* raw :=
    (if precision self =? 0 then bytes_of_ints (values self)
     else let* packed := result_map pack_H (values self) in Ok (concat packed)) in
  Ok (upper (hashlib.hexdigest raw)).

End QuantTable.

Module SofData.

Record t : Type := Build {
  precision : Z;
  height : Z;
  width : Z;
  component_count : Z
}.

End SofData.

Module Signature.

Record t : Type := Build {
  make : string;
  model : string;
  notes : string;
  hash_y : string;
  hash_c : string;
  layout : string;
  software : string;
  extra : string
}.

(** [to_dict]: the keys in insertion order; the two digests are left out. *)
Definition to_dict (self : t) : list (string * string) :=
  [ ("make", make self); ("model", model self); ("notes", notes self);
    ("layout", layout self); ("software", software self); ("extra", extra self) ].

End Signature.

(** ** [read_uint16] *)

Definition read_uint16 (data : list byte) (offset : nat) : result (Z * nat) :=
  if (length data <? offset + 2)%nat then
    Raise (JpegParseError "Unexpected end of data while reading uint16")
  else
    let* value := unpack_H (slice data offset (offset + 2)) in
    Ok (value, (offset + 2)%nat).

(** ** [parse_quant_tables]

    The source is a generator: it yields tables one by one and may raise
    after having yielded some.  The model returns the tables yielded and how
    the generator ended ([Ok tt]: exhausted). *)

(** One turn of the loop (lines 83-98): the table read at [offset] and the
    offset after it. *)
Definition read_table (segment : list byte) (offset : nat) : result (QuantTable.t * nat) :=
  let* header := byte_at segment offset in
  let offset := (offset + 1)%nat in
  let precision := Z.shiftr header 4 in
  let table_id := Z.land header 0x0F in
  let length_ := (64 * (if truthy precision then 2 else 1))%nat in
  let chunk := slice segment offset (offset + length_) in
  if negb (length chunk =? length_)%nat then
    Raise (JpegParseError "Incomplete DQT segment")
  else
    let offset := (offset + length_)%nat in
    let values :=
      if precision =? 0 then map int_of_byte chunk else unpack_H_list chunk in
    Ok (QuantTable.Build table_id precision values, offset).

Fixpoint parse_quant_tables_loop (fuel : nat) (segment : list byte) (offset : nat)
  : list QuantTable.t * result unit :=
  if (offset <? length segment)%nat then
    match fuel with
    | O => ([], OutOfFuel)
    | S fuel' =>
        match read_table segment offset with
        | Ok (table, offset') =>
            let '(later, fin) := parse_quant_tables_loop fuel' segment offset' in
            (table :: later, fin)
        | Raise e => ([], Raise e)
        | OutOfFuel => ([], OutOfFuel)
        end
    end
  else ([], Ok tt).

Definition parse_quant_tables (segment : list byte) : list QuantTable.t * result unit :=
  parse_quant_tables_loop (length segment) segment 0.

(** ** [parse_jpeg] *)

(** [quant_tables[table.table_id] = table] on a dict, which keeps its keys
    in insertion order: an existing key keeps its place. *)
Fixpoint dict_set (d : list (Z * QuantTable.t)) (k : Z) (v : QuantTable.t)
  : list (Z * QuantTable.t) :=
  match d with
  | [] => [(k, v)]
  | (k', v') :: d' => if k' =? k then (k, v) :: d' else (k', v') :: dict_set d' k v
  end.

Definition store_table (d : list (Z * QuantTable.t)) (table : QuantTable.t) :=
  dict_set d (QuantTable.table_id table) table.

(** The variables of [parse_jpeg] that the loop updates, [offset] apart. *)
Record parse_state : Type := ParseState {
  sof_data : option SofData.t;
  quant_tables : list (Z * QuantTable.t);
  info_flags : gmap string bool
}.

Definition initial_state : parse_state :=
  {| sof_data := None;
     quant_tables := [];
     info_flags := <["hasExif" := false]> (<["hasJFIF" := false]> (<["hasAdobe" := false]> ∅)) |}.

Definition set_flag (key : string) (st : parse_state) : parse_state :=
  {| sof_data := sof_data st;
     quant_tables := quant_tables st;
     info_flags := <[key := true]> (info_flags st) |}.

(** [while offset < len(data) and data[offset] == 0xFF: offset += 1], run
    on the bytes from [offset] on. *)
Fixpoint skip_fill_loop (rest : list byte) (offset : nat) : nat :=
  match rest with
  | b :: rest' => if int_of_byte b =? 0xFF then skip_fill_loop rest' (S offset) else offset
  | [] => offset
  end.

Definition skip_fill (data : list byte) (offset : nat) : nat :=
  skip_fill_loop (drop offset data) offset.

(** What one turn of the main loop finds at [offset] (lines 176-197):
    [Skip]: a [continue] before any segment is read; [Stop]: a [break];
    [Segment]: a marker with its payload, handed to the decoders. *)
Inductive scan_event : Type :=
  | Skip (offset : nat)
  | Stop
  | Segment (marker : Z) (segment_data : list byte) (offset : nat).

Definition standalone (marker : Z) : bool :=
  (marker =? 0xFF01) || ((0xFFD0 <=? marker) && (marker <=? 0xFFD7)).

(** Lines 193-197: the length field and the payload of a segment. *)
Definition read_segment (data : list byte) (offset : nat) : result (list byte * nat) :=
  let* (length_, offset) := read_uint16 data offset in
  if length_ <? 2 then Raise (JpegParseError "Invalid segment length")
  else
    let segment_data := slice data offset (offset + Z.to_nat length_ - 2) in
    let offset := (offset + Z.to_nat length_ - 2)%nat in
    Ok (segment_data, offset).

Definition scan_marker (data : list byte) (offset : nat) : result scan_event :=
  let* b := byte_at data offset in
  if negb (b =? 0xFF) then Ok (Skip (offset + 1))
  else
    let offset := skip_fill data offset in
    if (length data <=? offset)%nat then Ok Stop
    else
      let* m := byte_at data offset in
      let marker := Z.lor 0xFF00 m in
      let offset := (offset + 1)%nat in
      if marker =? 0xFFD9 then Ok Stop
      else if standalone marker then Ok (Skip offset)
      else
        let* (segment_data, offset) := read_segment data offset in
        Ok (Segment marker segment_data offset).

Definition is_sof (marker : Z) : bool :=
  (marker =? 0xFFC0) || (marker =? 0xFFC1) || (marker =? 0xFFC2) || (marker =? 0xFFC3).

(** The SOF branch (lines 203-214). *)
Definition decode_sof (segment_data : list byte) : result SofData.t :=
  if (length segment_data <? 6)%nat then Raise (JpegParseError "Invalid SOF segment")
  else
    let* precision := byte_at segment_data 0 in
    let* height := unpack_H (slice segment_data 1 3) in
    let* width := unpack_H (slice segment_data 3 5) in
    let* components := byte_at segment_data 5 in
    Ok (SofData.Build precision height width components).

(** b"Exif\x00\x00", b"JFIF\x00" and b"Adobe". *)
Definition exif_tag : list byte := [x45; x78; x69; x66; x00; x00].
Definition jfif_tag : list byte := [x4a; x46; x49; x46; x00].
Definition adobe_tag : list byte := [x41; x64; x6f; x62; x65].

(** The decoders (lines 199-220), applied to one segment. *)
Definition decode_segment (marker : Z) (segment_data : list byte) (st : parse_state)
  : result parse_state :=
  if marker =? 0xFFDB then
    let '(tables, fin) := parse_quant_tables segment_data in
    let* _ := fin in
    Ok {| sof_data := sof_data st;
          quant_tables := fold_left store_table tables (quant_tables st);
          info_flags := info_flags st |}
  else if is_sof marker then
    let* sof := decode_sof segment_data in
    Ok {| sof_data := Some sof;
          quant_tables := quant_tables st;
          info_flags := info_flags st |}
  else if (marker =? 0xFFE1) && startswith segment_data exif_tag then
    Ok (set_flag "hasExif" st)
  else if (marker =? 0xFFE0) && startswith segment_data jfif_tag then
    Ok (set_flag "hasJFIF" st)
  else if (marker =? 0xFFEE) && startswith segment_data adobe_tag then
    Ok (set_flag "hasAdobe" st)
  else Ok st.

(** The main loop (line 175). *)
Fixpoint parse_loop (fuel : nat) (data : list byte) (offset : nat) (st : parse_state)
  : result parse_state :=
  if (offset <? length data)%nat then
    match fuel with
    | O => OutOfFuel
    | S fuel' =>
        let* ev := scan_marker data offset in
        match ev with
        | Skip offset' => parse_loop fuel' data offset' st
        | Stop => Ok st
        | Segment marker segment_data offset' =>
            let* st' := decode_segment marker segment_data st in
            parse_loop fuel' data offset' st'
        end
    end
  else Ok st.

Definition soi : list byte := [xff; xd8].

(** [parse_jpeg], on the bytes that [path.read_bytes()] returned. *)
Definition parse_jpeg (data : list byte)
  : result (SofData.t * list QuantTable.t * gmap string bool) :=
  if (length data <? 4)%nat || negb (bytes_eqb (slice data 0 2) soi) then
    Raise (JpegParseError "Not a valid JPEG (missing SOI marker)")
  else
    let* st := parse_loop (length data) data 2 initial_state in
    match sof_data st with
    | None => Raise (JpegParseError "Missing SOF0 marker; cannot read image dimensions")
    | Some sof => Ok (sof, map snd (quant_tables st), info_flags st)
    end.

(** ** [find_signature_matches] *)

Definition hash_pair : Type := string * option string.

(** The test of lines 154-156. *)
Definition pair_matches (sig : Signature.t) (pair : hash_pair) : bool :=
  let '(hash_y, hash_c) := pair in
  String.eqb (Signature.hash_y sig) hash_y
  && match hash_c with
     | None => true
     | Some c => String.eqb (Signature.hash_c sig) c
     end.

Definition find_signature_matches (signatures : list Signature.t) (hash_pairs : list hash_pair)
  : list (list (string * string)) :=
  let available := fold_left (fun available sig => available ++ [sig]) signatures [] in
  fold_left
    (fun matches pair =>
       fold_left
         (fun matches sig =>
            if pair_matches sig pair then matches ++ [Signature.to_dict sig] else matches)
         available matches)
    hash_pairs [].

(** ** [assess_tampering] *)

Record Tampering : Type := {
  suspected : bool;
  summary : string;
  reasons : list string
}.

Definition exif_missing : string :=
  "EXIF block missing; metadata may have been stripped or altered.".
Definition adobe_detected : string :=
  "Adobe marker detected; file may have been edited.".
Definition not_matched : string :=
  "Quantization signature not matched to a known camera profile.".
Definition no_anomalies : string := "No metadata anomalies detected.".

(** [info_flags.get(key, False)]. *)
Definition get_flag (info_flags : gmap string bool) (key : string) : bool :=
  default false (info_flags !! key).

Definition is_nil {A : Type} (l : list A) : bool :=
  match l with [] => true | _ :: _ => false end.

Definition assess_tampering (info_flags : gmap string bool)
    (matches : list (list (string * string))) : Tampering :=
  let reasons : list string := [] in
  let reasons :=
    if negb (get_flag info_flags "hasExif") then reasons ++ [exif_missing] else reasons in
  let reasons :=
    if get_flag info_flags "hasAdobe" then reasons ++ [adobe_detected] else reasons in
  let reasons := if is_nil matches then reasons ++ [not_matched] else reasons in
  let suspected := negb (is_nil reasons) in
  let reasons := if negb suspected then reasons ++ [no_anomalies] else reasons in
  let summary :=
    if suspected then "Tampering suspected" else "No obvious tampering detected" in
  {| suspected := suspected; summary := summary; reasons := reasons |}.

(** ** [summarize] *)

(** [sorted(quant_tables, key=lambda qt: qt.table_id)]: a stable sort. *)
Fixpoint insert_by_id (table : QuantTable.t) (sorted : list QuantTable.t)
  : list QuantTable.t :=
  match sorted with
  | [] => [table]
  | other :: sorted' =>
      if QuantTable.table_id table <=? QuantTable.table_id other
      then table :: other :: sorted'
      else other :: insert_by_id table sorted'
  end.

Definition sorted_by_id (tables : list QuantTable.t) : list QuantTable.t :=
  fold_right insert_by_id [] tables.

(** The body of the loop of lines 261-264, at [index] over [table]. *)
Definition hash_pairs_step (ordered_tables : list QuantTable.t) (pairs : list hash_pair)
    (index : nat) (table : QuantTable.t) : result (list hash_pair) :=
  let* digest := QuantTable.md5 table in
  let pairs := pairs ++ [(digest, None)] in
  if (index + 1 <? length ordered_tables)%nat then
    let* digest := QuantTable.md5 table in
    match ordered_tables !! (index + 1)%nat with
    | Some next =>
        let* next_digest := QuantTable.md5 next in
        Ok (pairs ++ [(digest, Some next_digest)])
    | None => Raise IndexError
    end
  else Ok pairs.

Fixpoint hash_pairs_loop (ordered_tables : list QuantTable.t) (pairs : list hash_pair)
    (index : nat) (todo : list QuantTable.t) : result (list hash_pair) :=
  match todo with
  | [] => Ok pairs
  | table :: todo' =>
      let* pairs := hash_pairs_step ordered_tables pairs index table in
      hash_pairs_loop ordered_tables pairs (S index) todo'
  end.

(** Lines 259-264: [quant_hash_pairs] after the loop over
    [enumerate(ordered_tables)]. *)
Definition quant_hash_pairs (ordered_tables : list QuantTable.t) : result (list hash_pair) :=
  hash_pairs_loop ordered_tables [] 0 ordered_tables.

Record TableSummary : Type := {
  ts_id : Z;
  ts_precision : Z;
  ts_values : list Z;
  ts_md5 : string
}.

Record Summary : Type := {
  file_path : string;
  file_sizeBytes : nat;
  jpeg_width : Z;
  jpeg_height : Z;
  jpeg_componentCount : Z;
  jpeg_precision : Z;
  jpeg_flags : gmap string bool;
  quantizationTables : list TableSummary;
  signatureMatches : list (list (string * string));
  tamperingAssessment : Tampering
}.

(** [summarize], given the bytes of the file at [path] and the signatures
    that [parse_signatures()] loaded. *)
Definition summarize (path : string) (data : list byte) (signatures : list Signature.t)
  : result Summary :=
  let* (sof_data, quant_tables, info_flags) := parse_jpeg data in
  let ordered_tables := sorted_by_id quant_tables in
  let* quant_hash_pairs := quant_hash_pairs ordered_tables in
  let matches := find_signature_matches signatures quant_hash_pairs in
  let tampering := assess_tampering info_flags matches in
  let* tables :=
    result_map
      (fun table =>
         let* digest := QuantTable.md5 table in
         Ok {| ts_id := QuantTable.table_id table;
               ts_precision := QuantTable.precision table;
               ts_values := QuantTable.values table;
               ts_md5 := digest |})
      ordered_tables in
  Ok {| file_path := path;
        file_sizeBytes := length data;
        jpeg_width := SofData.width sof_data;
        jpeg_height := SofData.height sof_data;
        jpeg_componentCount := SofData.component_count sof_data;
        jpeg_precision := SofData.precision sof_data;
        jpeg_flags := info_flags;
        quantizationTables := tables;
        signatureMatches := matches;
        tamperingAssessment := tampering |}.

(** ** [parse_signatures]

    The model starts from the lines that iterating over the open file
    yields, each a [str] of code points below 256; opening the file, its
    decoding and the test that it exists are left out. *)

(** [str.isspace] on the code points below 256. *)
Definition is_space (c : ascii) : bool :=
  let n := N_of_ascii c in
  (((9 <=? n) && (n <=? 13)) || ((28 <=? n) && (n <=? 32)) || (n =? 133) || (n =? 160))%N.

Fixpoint lstrip (s : string) : string :=
  match s with
  | EmptyString => EmptyString
  | String c s' => if is_space c then lstrip s' else s
  end.

Fixpoint rstrip (s : string) : string :=
  match s with
  | EmptyString => EmptyString
  | String c s' =>
      match rstrip s' with
      | EmptyString => if is_space c then EmptyString else String c EmptyString
      | kept => String c kept
      end
  end.

(** [str.strip()]. *)
Definition strip (s : string) : string := rstrip (lstrip s).

(** The double quote. *)
Definition quote : ascii := "034"%char.

(** The text before the first double quote of [s] and the text after it. *)
Fixpoint until_quote (s : string) : option (string * string) :=
  match s with
  | EmptyString => None
  | String c s' =>
      if Ascii.eqb c quote then Some (EmptyString, s')
      else
        match until_quote s' with
        | Some (token, after) => Some (String c token, after)
        | None => None
        end
  end.

(** A match of the pattern of line 111 at the start of [s]: its group and
    its length.  The pattern is the text _T( and a double quote, then a
    group of characters other than the double quote, as long as can be,
    then a double quote and a closing parenthesis: so the group runs up to
    the next double quote, which a closing parenthesis must follow. *)
Definition match_here (s : string) : option (string * nat) :=
  match s with
  | String c0 (String c1 (String c2 (String c3 rest))) =>
      if Ascii.eqb c0 "_" && Ascii.eqb c1 "T" && Ascii.eqb c2 "(" && Ascii.eqb c3 quote
      then
        match until_quote rest with
        | Some (token, String c _) =>
            if Ascii.eqb c ")" then Some (token, (String.length token + 6)%nat)
            else None
        | _ => None
        end
      else None
  | _ => None
  end.

(** [pattern.findall]: the groups of the matches found from left to right,
    each search starting where the previous match ended; [skip] counts the
    characters of the current match still to pass. *)
Fixpoint findall_from (skip : nat) (s : string) : list string :=
  match s with
  | EmptyString => []
  | String _ s' =>
      match skip with
      | S skip' => findall_from skip' s'
      | O =>
          match match_here s with
          | Some (token, len) => token :: findall_from (len - 1) s'
          | None => findall_from 0 s'
          end
      end
  end.

Definition findall (s : string) : list string := findall_from 0 s.

(** What the body of the loop does with one line: [continue], [break] at the
    sentinel, or append a record. *)
Inductive line_kind : Type :=
  | Skipped
  | Sentinel
  | Record (sig : Signature.t).

(** Lines 119-139, on the tokens of a line. *)
Definition record_of_tokens (tokens : list string) : line_kind :=
  if (length tokens <? 5)%nat then Skipped
  else
    match tokens with
    | make :: model :: notes :: hash_y :: hash_c :: rest =>
        let layout := nth 0 rest EmptyString in
        let software := nth 1 rest EmptyString in
        let extra := nth 2 rest EmptyString in
        if String.eqb make "*" then Sentinel
        else Record (Signature.Build make model notes hash_y hash_c layout software extra)
    | _ => Skipped
    end.

Definition read_line (line : string) : line_kind :=
  let striped := strip line in
  if negb (String.prefix "{" striped) then Skipped
  else record_of_tokens (findall striped).

Fixpoint parse_signatures_loop (lines : list string) (signatures : list Signature.t)
  : list Signature.t :=
  match lines with
  | [] => signatures
  | line :: lines' =>
      match read_line line with
      | Skipped => parse_signatures_loop lines' signatures
      | Sentinel => signatures
      | Record sig => parse_signatures_loop lines' (signatures ++ [sig])
      end
  end.

Definition parse_signatures (lines : list string) : list Signature.t :=
  parse_signatures_loop lines [].

(** ** Notions used to state the properties *)

(** The segments that the main loop of [parse_jpeg] hands to the decoders,
    in stream order: the [Segment] events of [scan_marker], collected with
    the control flow of [parse_loop]. *)
Fixpoint scan_segments_loop (fuel : nat) (data : list byte) (offset : nat)
  : list (Z * list byte) :=
  if (offset <? length data)%nat then
    match fuel with
    | O => []
    | S fuel' =>
        match scan_marker data offset with
        | Ok (Skip offset') => scan_segments_loop fuel' data offset'
        | Ok (Segment marker segment_data offset') =>
            (marker, segment_data) :: scan_segments_loop fuel' data offset'
        | _ => []
        end
    end
  else [].

Definition scan_segments (data : list byte) : list (Z * list byte) :=
  scan_segments_loop (length data) data 2.

(** The decoders run over a list of segments. *)
Fixpoint decode_all (segments : list (Z * list byte)) (st : parse_state)
  : result parse_state :=
  match segments with
  | [] => Ok st
  | (marker, segment_data) :: segments' =>
      let* st' := decode_segment marker segment_data st in
      decode_all segments' st'
  end.

(** The SOF0-SOF3 segments of a file, in stream order. *)
Definition sof_segments (data : list byte) : list (Z * list byte) :=
  List.filter (fun s => is_sof (fst s)) (scan_segments data).

(** The two-byte big-endian number at [offset]. *)
Definition declared_length (data : list byte) (offset : nat) : Z :=
  Z.lor (Z.shiftl (int_of_byte (nth offset data x00)) 8)
        (int_of_byte (nth (S offset) data x00)).

(** The number of bytes that the coefficients take after a DQT header
    byte. *)
Definition table_bytes (header : byte) : nat :=
  (64 * (if truthy (Z.shiftr (int_of_byte header) 4) then 2 else 1))%nat.

(** A table as the DQT decoder yields them: 64 coefficients, each below 256
    at precision 0 and below 65536 otherwise. *)
Definition coefficient_bound (precision : Z) : Z :=
  if precision =? 0 then 256 else 65536.

Definition decoded_table (table : QuantTable.t) : bool :=
  (length (QuantTable.values table) =? 64)%nat
  && forallb (fun v => (0 <=? v) && (v <? coefficient_bound (QuantTable.precision table)))
       (QuantTable.values table).

(** The canonical byte sequence in the words of the specification: one byte
    per coefficient at precision 0, a big-endian 16-bit value per
    coefficient at precision 1, in stream order. *)
Definition single_byte (v : Z) : byte :=
  default x00 (Byte.of_N (Z.to_N (v mod 256))).

Definition big_endian_16 (v : Z) : list byte :=
  [single_byte (v / 256); single_byte v].

Definition canonical_bytes (table : QuantTable.t) : option (list byte) :=
  if QuantTable.precision table =? 0 then
    Some (map single_byte (QuantTable.values table))
  else if QuantTable.precision table =? 1 then
    Some (concat (map big_endian_16 (QuantTable.values table)))
  else None.

(** The digest pairs in the words of the specification, from the digests of
    the tables in ascending order of identifier: for each position
    [(digest_i, none)] and, when a next table exists,
    [(digest_i, digest_(i+1))]. *)
Fixpoint pairs_of_digests (digests : list string) : list hash_pair :=
  match digests with
  | [] => []
  | d :: digests' =>
      (d, None)
      :: match digests' with
         | [] => []
         | d' :: _ => [(d, Some d')]
         end
      ++ pairs_of_digests digests'
  end.

Definition is_single (pair : hash_pair) : bool :=
  match snd pair with None => true | Some _ => false end.

(** Tables in ascending order of identifier. *)
Definition ascending_ids (tables : list QuantTable.t) : Prop :=
  StronglySorted (fun a b => QuantTable.table_id a <= QuantTable.table_id b) tables.

(** The lookup on a store holding one record, asked about one pair: either
    the record is reported or nothing is. *)
Definition reports_match (sig : Signature.t) (pair : hash_pair) : Prop :=
  find_signature_matches [sig] [pair] = [Signature.to_dict sig].

(** The matching rule in the words of the specification, for a given way
    [wildcard] of recognising a wildcard chrominance digest in a record:
    the luminance digest equals the first digest, and the chrominance digest
    is a wildcard or equals the second digest when there is one. *)
Definition lookup_rule (wildcard : string -> bool) : Prop :=
  forall sig pair,
    reports_match sig pair <->
    Signature.hash_y sig = fst pair
    /\ (wildcard (Signature.hash_c sig) = true
        \/ forall c, snd pair = Some c -> Signature.hash_c sig = c).

(** A record whose chrominance digest is absent: the field is a [str], so
    an absent digest is the empty string. *)
Definition absent_digest (s : string) : bool := String.eqb s "".

(** The rule of the specification for the segment whose length field is at
    [offset]: [FormatError] when the length field or the declared payload
    runs past the end of the buffer or the declared length is below 2, and
    otherwise a payload of exactly the declared length minus 2 bytes. *)
Definition segment_length_rule (data : list byte) (offset : nat) : Prop :=
  let declared := declared_length data offset in
  ((length data < offset + 2)%nat \/ declared < 2
   \/ (length data < offset + Z.to_nat declared)%nat ->
   exists msg, read_segment data offset = Raise (JpegParseError msg))
  /\ ((offset + 2 <= length data)%nat -> 2 <= declared ->
      (offset + Z.to_nat declared <= length data)%nat ->
      exists payload offset',
        read_segment data offset = Ok (payload, offset')
        /\ Z.of_nat (length payload) = declared - 2).

(** The rule of the specification for a file with several SOF segments:
    the frame data of the result are those of the first one. *)
Definition first_sof_rule (data : list byte) : Prop :=
  forall sof tables flags marker payload later,
    parse_jpeg data = Ok (sof, tables, flags) ->
    sof_segments data = (marker, payload) :: later ->
    decode_sof payload = Ok sof.

(** ** Sample inputs *)

(** SOF0, 8 bits, 100 x 100, 3 components. *)
Definition sof_100x100 : list byte :=
  [xff; xc0; x00; x08; x08; x00; x64; x00; x64; x03].

(** SOF2, 8 bits, 16 x 32, 1 component. *)
Definition sof_16x32 : list byte :=
  [xff; xc2; x00; x08; x08; x00; x10; x00; x20; x01].

(** DQT with one table: identifier 0, precision 0, 64 coefficients 16. *)
Definition dqt_flat : list byte := [xff; xdb; x00; x43; x00] ++ repeat x10 64.

Definition eoi : list byte := [xff; xd9].

(** Two frame headers, then a quantization table. *)
Definition two_frames_file : list byte :=
  soi ++ sof_100x100 ++ sof_16x32 ++ dqt_flat ++ eoi.

(** A file that ends inside an APP0 segment: the segment declares 16
    bytes, 7 are there. *)
Definition truncated_file : list byte :=
  soi ++ sof_100x100 ++ [xff; xe0; x00; x10; x4a; x46; x49; x46; x00].

Definition flat_table (table_id value : Z) : QuantTable.t :=
  QuantTable.Build table_id 0 (repeat value 64).

(** Two tables as [parse_jpeg] may return them, the larger identifier
    first. *)
Definition two_tables : list QuantTable.t := [flat_table 1 17; flat_table 0 16].

(** A record for a camera whose luminance and chrominance tables are the
    two tables above. *)
Definition sample_signature : Signature.t :=
  Signature.Build "CAMERA" "Model 1" "" "03864632648E248F36683D21F92FE764"
    "CDAACF3DCD92B9B42B84BB90257874ED" "" "" "".

(** ** Further notions: how the scan ends, well-formed streams *)

(** How the main loop of [parse_jpeg] would end if no decoder raised:
    [Ok tt] at EOI or at the end of the data, or the error of the scanner. *)
Fixpoint scan_end_loop (fuel : nat) (data : list byte) (offset : nat) : result unit :=
  if (offset <? length data)%nat then
    match fuel with
    | O => OutOfFuel
    | S fuel' =>
        match scan_marker data offset with
        | Ok (Skip offset') | Ok (Segment _ _ offset') => scan_end_loop fuel' data offset'
        | Ok Stop => Ok tt
        | Raise e => Raise e
        | OutOfFuel => OutOfFuel
        end
    end
  else Ok tt.

Definition scan_end (data : list byte) : result unit :=
  scan_end_loop (length data) data 2.

(** The messages of the [JpegParseError]s of [parse_jpeg]. *)
Definition parse_jpeg_messages : list string :=
  [ "Not a valid JPEG (missing SOI marker)";
    "Unexpected end of data while reading uint16";
    "Invalid segment length";
    "Incomplete DQT segment";
    "Invalid SOF segment";
    "Missing SOF0 marker; cannot read image dimensions" ].

(** The tables that the DQT segments of a list of segments yield, in
    stream order. *)
Definition all_tables (segments : list (Z * list byte)) : list QuantTable.t :=
  flat_map
    (fun s => if fst s =? 0xFFDB then fst (parse_quant_tables (snd s)) else [])
    segments.

(** [table] is the last table of [tables] with its identifier. *)
Definition last_defined (table : QuantTable.t) (tables : list QuantTable.t) : Prop :=
  exists before after,
    tables = before ++ table :: after
    /\ Forall (fun other => QuantTable.table_id other <> QuantTable.table_id table) after.

(** A dict of tables as [parse_jpeg] builds it: each key is the identifier
    of its table, and no key occurs twice. *)
Definition table_dict (d : list (Z * QuantTable.t)) : Prop :=
  Forall (fun entry => fst entry = QuantTable.table_id (snd entry)) d
  /\ NoDup (map fst d).

(** Whether some segment of a list has the given marker and a payload that
    starts with the given tag. *)
Definition flagged (marker : Z) (tag : list byte) (segments : list (Z * list byte))
  : bool :=
  existsb (fun s => (fst s =? marker) && startswith (snd s) tag) segments.

(** The dict of the three presence flags. *)
Definition flags_of (exif jfif adobe : bool) : gmap string bool :=
  <["hasExif" := exif]> (<["hasJFIF" := jfif]> (<["hasAdobe" := adobe]> ∅)).

(** Text made of the digits 0-9 and the capital letters A-F. *)
Definition upper_hex_text (s : string) : Prop :=
  forall c, In c (list_ascii_of_string s) ->
            In c (list_ascii_of_string "0123456789ABCDEF").

(** The layout of a stream after SOI, as the scanner reads it: segments
    (a marker, a two-byte length, a payload), standalone markers, each one
    possibly after fill bytes 0xFF, and stray bytes between them. *)
Inductive stream_item : Type :=
  | SegmentItem (fill : nat) (code : byte) (payload : list byte)
  | StandaloneItem (fill : nat) (code : byte)
  | StrayByte (b : byte).

Definition marker_of (code : byte) : Z := Z.lor 0xFF00 (int_of_byte code).

Definition item_bytes (item : stream_item) : list byte :=
  match item with
  | SegmentItem fill code payload =>
      repeat xff (S fill) ++ code
      :: big_endian_16 (Z.of_nat (length payload) + 2) ++ payload
  | StandaloneItem fill code => repeat xff (S fill) ++ [code]
  | StrayByte b => [b]
  end.

(** A segment has a marker code other than 0xFF, EOI and the standalone
    ones, and a length that fits two bytes; a stray byte is not 0xFF. *)
Definition well_formed_item (item : stream_item) : bool :=
  match item with
  | SegmentItem _ code payload =>
      negb (int_of_byte code =? 0xFF) && negb (marker_of code =? 0xFFD9)
      && negb (standalone (marker_of code)) && (Z.of_nat (length payload) + 2 <? 65536)
  | StandaloneItem _ code => negb (int_of_byte code =? 0xFF) && standalone (marker_of code)
  | StrayByte b => negb (int_of_byte b =? 0xFF)
  end.

Definition stream_bytes (items : list stream_item) : list byte :=
  concat (map item_bytes items).

Definition item_segments (items : list stream_item) : list (Z * list byte) :=
  flat_map
    (fun item =>
       match item with
       | SegmentItem _ code payload => [(marker_of code, payload)]
       | _ => []
       end)
    items.

(** The end of a stream: fill bytes up to the end of the data, or EOI,
    possibly after fill bytes, and whatever follows it. *)
Definition stream_end (ending : list byte) : Prop :=
  exists fill,
    ending = repeat xff fill
    \/ exists junk, ending = repeat xff (S fill) ++ xd9 :: junk.

(** A stream with a frame header, a stray byte, a restart marker after two
    fill bytes, and a quantization table after one fill byte. *)
Definition sample_items : list stream_item :=
  [ SegmentItem 0 xc0 [x08; x00; x64; x00; x64; x03];
    StrayByte x00;
    StandaloneItem 2 xd0;
    SegmentItem 1 xdb (x00 :: repeat x10 64) ].

(** The text _T( followed by the token between double quotes and a closing
    parenthesis. *)
Definition token_text (token : string) : string :=
  ("_T(" ++ String quote token ++ String quote ")")%string.

(** Tokens written one after the other, each after a separator. *)
Fixpoint tokens_text (items : list (string * string)) : string :=
  match items with
  | [] => EmptyString
  | (separator, token) :: items' =>
      (separator ++ token_text token ++ tokens_text items')%string
  end.

(** [c] does not occur in [s]. *)
Fixpoint without (c : ascii) (s : string) : bool :=
  match s with
  | EmptyString => true
  | String c' s' => negb (Ascii.eqb c' c) && without c s'
  end.

Fixpoint all_space (s : string) : bool :=
  match s with
  | EmptyString => true
  | String c s' => is_space c && all_space s'
  end.

(** A separator and a token, as the tokenizer wants them: no underscore in
    the separator, no double quote in the token. *)
Definition plain_item (item : string * string) : bool :=
  without "_" (fst item) && without quote (snd item).

(** The records of a line, for a file read to its end. *)
Definition line_records (line : string) : list Signature.t :=
  match read_line line with
  | Record sig => [sig]
  | _ => []
  end.

Definition is_sentinel (line : string) : bool :=
  match read_line line with
  | Sentinel => true
  | _ => false
  end.

(** A line of the signature file in the layout of the original: after
    two spaces, between braces, the tokens written as above and separated
    by commas, and a comma after the closing brace. *)
Definition record_line (tokens : list string) : string :=
  ("  {"
   ++ tokens_text
        (match tokens with
         | [] => []
         | token :: tokens' => (" ", token) :: map (fun token => (", ", token)) tokens'
         end)
   ++ " },")%string.

(** The eight tokens of a record. *)
Definition signature_tokens (sig : Signature.t) : list string :=
  [ Signature.make sig; Signature.model sig; Signature.notes sig;
    Signature.hash_y sig; Signature.hash_c sig; Signature.layout sig;
    Signature.software sig; Signature.extra sig ].

(** A record that the file can hold as it is: no double quote in its
    fields, and a make other than the sentinel. *)
Definition plain_signature (sig : Signature.t) : bool :=
  forallb (without quote) (signature_tokens sig)
  && negb (String.eqb (Signature.make sig) "*").

(** * Properties *)

(** ** The hash function agrees with the RFC 1321 test suite *)

Example md5_empty :
  upper (hashlib.hexdigest []) = "D41D8CD98F00B204E9800998ECF8427E".
Proof. vm_compute. reflexivity. Qed.

Example md5_abc :
  upper (hashlib.hexdigest (list_byte_of_string "abc"))
  = "900150983CD24FB0D6963F7D28E17F72".
Proof. vm_compute. reflexivity. Qed.

Example md5_two_blocks :
  hashlib.hexdigest
    (list_byte_of_string
       "12345678901234567890123456789012345678901234567890123456789012345678901234567890")
  = "57edf4a22be3c955ac49da2e2107b67a".
Proof. vm_compute. reflexivity. Qed.

(** ** Results *)

Lemma result_bind_Ok {A B : Type} (m : result A) (k : A -> result B) (b : B) :
  result_bind m k = Ok b -> exists a, m = Ok a /\ k a = Ok b.
Proof. destruct m; simpl; intros H; try discriminate. eauto. Qed.

(** [inv_bind H as (a & Ha & H)]: a bind that returned has gone through its
    first computation. *)
Tactic Notation "inv_bind" hyp(H) "as" simple_intropattern(pat) :=
  apply result_bind_Ok in H; destruct H as pat.

(** ** The start of the file *)

(** C9. A buffer of fewer than four bytes is rejected with the missing-SOI
    error, whatever its bytes are, the two SOI bytes included. *)
Theorem short_buffer_rejected (data : list byte) :
  (length data < 4)%nat ->
  parse_jpeg data = Raise (JpegParseError "Not a valid JPEG (missing SOI marker)").
Proof.
  intros Hlen. unfold parse_jpeg.
  destruct (Nat.ltb_spec (length data) 4) as [_ | Hge]; [reflexivity | lia].
Qed.

Lemma short_buffer_rejected_soi_only :
  (length soi < 4)%nat
  /\ parse_jpeg soi = Raise (JpegParseError "Not a valid JPEG (missing SOI marker)").
Proof.
  split; [simpl; lia | apply (short_buffer_rejected soi); simpl; lia].
Defined.

(** ** The tamper heuristic *)

(** C4. The reasons come in the order EXIF absent, Adobe present, no
    signature match; [suspected] holds exactly when one of the three
    conditions does; a clean verdict carries the single reason
    [no_anomalies].  EXIF absent alone makes the verdict suspected; EXIF
    present, Adobe absent and a match make it clean. *)
Theorem assess_tampering_spec (info_flags : gmap string bool)
    (matches : list (list (string * string))) :
  let verdict := assess_tampering info_flags matches in
  let no_exif := negb (get_flag info_flags "hasExif") in
  let adobe := get_flag info_flags "hasAdobe" in
  let unmatched := is_nil matches in
  suspected verdict = no_exif || adobe || unmatched
  /\ reasons verdict
     = (if no_exif || adobe || unmatched
        then (if no_exif then [exif_missing] else [])
             ++ (if adobe then [adobe_detected] else [])
             ++ (if unmatched then [not_matched] else [])
        else [no_anomalies])
  /\ summary verdict
     = (if suspected verdict then "Tampering suspected"
        else "No obvious tampering detected")
  /\ (get_flag info_flags "hasExif" = false -> suspected verdict = true)
  /\ (get_flag info_flags "hasExif" = true ->
      get_flag info_flags "hasAdobe" = false ->
      matches <> [] ->
      suspected verdict = false /\ reasons verdict = [no_anomalies]).
Proof.
  unfold assess_tampering. simpl.
  destruct (get_flag info_flags "hasExif"), (get_flag info_flags "hasAdobe"),
    matches as [| m matches']; simpl; repeat split; intros; congruence.
Qed.

Lemma assess_tampering_spec_witness :
  suspected (assess_tampering ∅ [[("make", "CANON")]]) = true
  /\ suspected
       (assess_tampering (<["hasExif" := true]> (<["hasAdobe" := false]> ∅))
          [[("make", "CANON")]]) = false
  /\ reasons
       (assess_tampering (<["hasExif" := true]> (<["hasAdobe" := false]> ∅))
          [[("make", "CANON")]]) = [no_anomalies].
Proof.
  destruct (assess_tampering_spec ∅ [[("make", "CANON")]]) as (_ & _ & _ & Hexif & _).
  destruct (assess_tampering_spec (<["hasExif" := true]> (<["hasAdobe" := false]> ∅))
              [[("make", "CANON")]]) as (_ & _ & _ & _ & Hclean).
  split; [apply Hexif; reflexivity |].
  apply Hclean; [reflexivity | reflexivity | discriminate].
Defined.

(** ** The signature lookup *)

Lemma fold_left_snoc {A : Type} (l acc : list A) :
  fold_left (fun acc x => acc ++ [x]) l acc = acc ++ l.
Proof.
  revert acc. induction l as [| x l IH]; intros acc; simpl.
  - now rewrite app_nil_r.
  - rewrite IH, <- app_assoc. reflexivity.
Qed.

Lemma matches_of_pair (sigs : list Signature.t) (pair : hash_pair)
    (matches : list (list (string * string))) :
  fold_left
    (fun matches sig =>
       if pair_matches sig pair then matches ++ [Signature.to_dict sig] else matches)
    sigs matches
  = matches ++ map Signature.to_dict (List.filter (fun sig => pair_matches sig pair) sigs).
Proof.
  revert matches. induction sigs as [| sig sigs IH]; intros matches; simpl.
  - now rewrite app_nil_r.
  - rewrite IH. destruct (pair_matches sig pair); simpl.
    + now rewrite <- app_assoc.
    + reflexivity.
Qed.

Lemma matches_of_pairs (sigs : list Signature.t) (pairs : list hash_pair)
    (matches : list (list (string * string))) :
  fold_left
    (fun matches pair =>
       fold_left
         (fun matches sig =>
            if pair_matches sig pair then matches ++ [Signature.to_dict sig] else matches)
         sigs matches)
    pairs matches
  = matches
    ++ concat
         (map (fun pair =>
                 map Signature.to_dict
                   (List.filter (fun sig => pair_matches sig pair) sigs))
            pairs).
Proof.
  revert matches. induction pairs as [| pair pairs IH]; intros matches; simpl.
  - now rewrite app_nil_r.
  - rewrite matches_of_pair, IH, <- app_assoc. reflexivity.
Qed.

(** The result of the lookup: pair after pair, the records of the store
    that pass the test, in the order of the store. *)
Lemma find_signature_matches_concat (sigs : list Signature.t) (pairs : list hash_pair) :
  find_signature_matches sigs pairs
  = concat
      (map (fun pair =>
              map Signature.to_dict (List.filter (fun sig => pair_matches sig pair) sigs))
         pairs).
Proof.
  unfold find_signature_matches. rewrite fold_left_snoc. simpl.
  apply matches_of_pairs.
Qed.

Lemma pair_matches_iff (sig : Signature.t) (pair : hash_pair) :
  pair_matches sig pair = true <->
  Signature.hash_y sig = fst pair
  /\ (snd pair = None \/ snd pair = Some (Signature.hash_c sig)).
Proof.
  destruct pair as [hash_y [c |]]; unfold pair_matches; simpl;
    rewrite andb_true_iff, ?String.eqb_eq.
  - split.
    + intros [Hy Hc]. split; [exact Hy | right; now rewrite Hc].
    + intros [Hy [Hc | Hc]]; [discriminate | split; congruence].
  - split; [intros [Hy _]; auto | intros [Hy _]; auto].
Qed.

Lemma reports_match_iff (sig : Signature.t) (pair : hash_pair) :
  reports_match sig pair <-> pair_matches sig pair = true.
Proof.
  unfold reports_match. rewrite find_signature_matches_concat. simpl.
  destruct (pair_matches sig pair); simpl; split; intros H;
    reflexivity || discriminate.
Qed.

Lemma string_cons_neq (c : ascii) (s : string) : String c s <> s.
Proof.
  intros H. apply (f_equal String.length) in H. simpl in H. lia.
Qed.

(** Whatever value is taken to be a wildcard, a record carrying it is not
    matched by a pair whose second digest is another string. *)
Lemma lookup_rule_fails (wildcard : string -> bool) (w : string) :
  wildcard w = true -> ~ lookup_rule wildcard.
Proof.
  intros Hw Hrule.
  pose (sig := Signature.Build "" "" "" "Y" w "" "" "").
  destruct (Hrule sig ("Y", Some (String "x" w))) as [_ Hback].
  assert (Hrep : reports_match sig ("Y", Some (String "x" w))).
  { apply Hback. split; [reflexivity | left; exact Hw]. }
  apply reports_match_iff, pair_matches_iff in Hrep.
  destruct Hrep as [_ [Hc | Hc]]; simpl in Hc; [discriminate |].
  injection Hc as Hc. now apply string_cons_neq in Hc.
Qed.

Example absent_chrominance_not_matched :
  find_signature_matches [Signature.Build "CAMERA" "" "" "Y" "" "" "" ""] [("Y", Some "C")]
  = []
  /\ find_signature_matches [Signature.Build "CAMERA" "" "" "Y" "" "" "" ""] [("Y", None)]
     = [Signature.to_dict (Signature.Build "CAMERA" "" "" "Y" "" "" "" "")].
Proof. split; reflexivity. Qed.

(** C1, as stated, fails: a record with an absent chrominance digest is not
    matched by a pair that carries a second digest. *)
Lemma lookup_rule_refuted : ~ lookup_rule absent_digest.
Proof. apply (lookup_rule_fails absent_digest ""). reflexivity. Qed.

(** C1, amended.  The lookup returns, pair after pair and in the order of
    the store, the records that pass the test; a record passes exactly when
    its luminance digest equals the first digest of the pair and the pair
    has no second digest or its second digest equals the chrominance digest
    of the record. *)
Theorem lookup_matches (sigs : list Signature.t) (pairs : list hash_pair) :
  find_signature_matches sigs pairs
  = concat
      (map (fun pair =>
              map Signature.to_dict (List.filter (fun sig => pair_matches sig pair) sigs))
         pairs)
  /\ forall sig pair,
       reports_match sig pair <->
       Signature.hash_y sig = fst pair
       /\ (snd pair = None \/ snd pair = Some (Signature.hash_c sig)).
Proof.
  split; [apply find_signature_matches_concat |].
  intros sig pair. rewrite reports_match_iff. apply pair_matches_iff.
Qed.

(** ** Bytes and slices *)

Lemma int_of_byte_range (b : byte) : 0 <= int_of_byte b < 256.
Proof.
  unfold int_of_byte. pose proof (Byte.to_N_bounded b). lia.
Qed.

Lemma byte_of_int_of_byte (b : byte) : byte_of_int (int_of_byte b) = Some b.
Proof.
  unfold byte_of_int. pose proof (int_of_byte_range b) as Hr.
  destruct (Z.leb_spec 0 (int_of_byte b)); [| lia].
  destruct (Z.ltb_spec (int_of_byte b) 256); [| lia]. simpl.
  unfold int_of_byte. rewrite N2Z.id. apply Byte.of_to_N.
Qed.

Lemma length_slice {A : Type} (data : list A) (lo hi : nat) :
  length (slice data lo hi) = Nat.min (hi - lo) (length data - lo).
Proof. unfold slice. now rewrite length_take, length_drop. Qed.

Lemma slice_app_shift {A : Type} (pre data : list A) (lo hi : nat) :
  slice (pre ++ data) (length pre + lo) (length pre + hi) = slice data lo hi.
Proof.
  unfold slice. rewrite drop_app_add'; [| reflexivity].
  f_equal. lia.
Qed.

Lemma slice_app_within {A : Type} (data rest : list A) (lo hi : nat) :
  (hi <= length data)%nat -> slice (data ++ rest) lo hi = slice data lo hi.
Proof.
  intros Hhi. unfold slice.
  destruct (Nat.le_gt_cases lo (length data)) as [Hlo | Hlo].
  - rewrite drop_app_le by exact Hlo.
    rewrite take_app_le; [reflexivity |]. rewrite length_drop. lia.
  - replace (hi - lo)%nat with 0%nat by lia. reflexivity.
Qed.

Lemma byte_at_app_shift (pre data : list byte) (i : nat) :
  byte_at (pre ++ data) (length pre + i) = byte_at data i.
Proof.
  unfold byte_at. rewrite lookup_app_r by lia.
  now replace (length pre + i - length pre)%nat with i by lia.
Qed.

Lemma byte_at_app_within (data rest : list byte) (i : nat) :
  (i < length data)%nat -> byte_at (data ++ rest) i = byte_at data i.
Proof. intros Hi. unfold byte_at. now rewrite lookup_app_l. Qed.

Lemma byte_at_Ok (data : list byte) (i : nat) :
  (i < length data)%nat -> exists b, data !! i = Some b /\ byte_at data i = Ok (int_of_byte b).
Proof.
  intros Hi. destruct (lookup_lt_is_Some_2 data i Hi) as [b Hb].
  exists b. unfold byte_at. now rewrite Hb.
Qed.

Lemma length_unpack_H_list (n : nat) (chunk : list byte) :
  length chunk = (2 * n)%nat -> length (unpack_H_list chunk) = n.
Proof.
  revert chunk. induction n as [| n IH]; intros chunk Hlen.
  - destruct chunk; [reflexivity | discriminate].
  - destruct chunk as [| hi [| lo chunk]]; simpl in Hlen; try lia.
    simpl. f_equal. apply IH. lia.
Qed.

(** ** The DQT decoder *)

Lemma parse_quant_tables_loop_eq (fuel : nat) (segment : list byte) (offset : nat) :
  parse_quant_tables_loop fuel segment offset
  = if (offset <? length segment)%nat then
      match fuel with
      | O => ([], OutOfFuel)
      | S fuel' =>
          match read_table segment offset with
          | Ok (table, offset') =>
              let '(later, fin) := parse_quant_tables_loop fuel' segment offset' in
              (table :: later, fin)
          | Raise e => ([], Raise e)
          | OutOfFuel => ([], OutOfFuel)
          end
      end
    else ([], Ok tt).
Proof. destruct fuel; reflexivity. Qed.

Lemma read_table_unfold (segment : list byte) (offset : nat) (header : byte) :
  segment !! offset = Some header ->
  read_table segment offset
  = let chunk := slice segment (offset + 1) (offset + 1 + table_bytes header) in
    if negb (length chunk =? table_bytes header)%nat then
      Raise (JpegParseError "Incomplete DQT segment")
    else
      Ok (QuantTable.Build (Z.land (int_of_byte header) 0x0F)
            (Z.shiftr (int_of_byte header) 4)
            (if Z.shiftr (int_of_byte header) 4 =? 0 then map int_of_byte chunk
             else unpack_H_list chunk),
          (offset + 1 + table_bytes header)%nat).
Proof. intros Hh. unfold read_table, byte_at. rewrite Hh. reflexivity. Qed.

Lemma read_table_cases (segment : list byte) (offset : nat) (header : byte) :
  segment !! offset = Some header ->
  (length segment < offset + 1 + table_bytes header)%nat
  /\ read_table segment offset = Raise (JpegParseError "Incomplete DQT segment")
  \/ (offset + 1 + table_bytes header <= length segment)%nat
     /\ exists table,
         read_table segment offset = Ok (table, (offset + 1 + table_bytes header)%nat)
         /\ length (QuantTable.values table) = 64%nat
         /\ QuantTable.precision table = Z.shiftr (int_of_byte header) 4
         /\ QuantTable.table_id table = Z.land (int_of_byte header) 15.
Proof.
  intros Hh. rewrite (read_table_unfold _ _ _ Hh). cbv zeta.
  pose proof (length_slice segment (offset + 1) (offset + 1 + table_bytes header)) as Hlen.
  apply lookup_lt_Some in Hh.
  destruct (Nat.eqb_spec
              (length (slice segment (offset + 1) (offset + 1 + table_bytes header)))
              (table_bytes header)) as [Heq | Hne]; cbn [negb].
  - right. split; [lia |]. eexists. split; [reflexivity |].
    cbn [QuantTable.values QuantTable.precision QuantTable.table_id].
    split; [| split; reflexivity].
    unfold table_bytes, truthy in Heq |- *.
    destruct (Z.shiftr (int_of_byte header) 4 =? 0); cbn [negb] in Heq |- *.
    + rewrite length_map. rewrite Heq. reflexivity.
    + apply length_unpack_H_list. rewrite Heq. reflexivity.
  - left. split; [lia | reflexivity].
Qed.

Lemma tables_have_64_values (fuel : nat) (segment : list byte) (offset : nat) :
  Forall (fun table => length (QuantTable.values table) = 64%nat)
    (fst (parse_quant_tables_loop fuel segment offset)).
Proof.
  revert offset. induction fuel as [| fuel IH]; intros offset;
    rewrite parse_quant_tables_loop_eq;
    destruct (offset <? length segment)%nat eqn:Hlt; simpl; try constructor.
  apply Nat.ltb_lt in Hlt.
  destruct (lookup_lt_is_Some_2 segment offset Hlt) as [header Hh].
  destruct (read_table_cases segment offset header Hh)
    as [[_ Hr] | [_ (table & Hr & H64 & _)]]; rewrite Hr; simpl; [constructor |].
  specialize (IH (offset + 1 + table_bytes header)%nat).
  destruct (parse_quant_tables_loop fuel segment (offset + 1 + table_bytes header)).
  simpl in *. constructor; assumption.
Qed.

Lemma dqt_fuel_irrelevant (fuel1 fuel2 : nat) (segment : list byte) (offset : nat) :
  (length segment - offset <= fuel1)%nat ->
  (length segment - offset <= fuel2)%nat ->
  parse_quant_tables_loop fuel1 segment offset
  = parse_quant_tables_loop fuel2 segment offset.
Proof.
  revert fuel2 offset. induction fuel1 as [| fuel1 IH]; intros fuel2 offset H1 H2;
    rewrite (parse_quant_tables_loop_eq _ segment offset);
    rewrite (parse_quant_tables_loop_eq fuel2 segment offset);
    destruct (Nat.ltb_spec offset (length segment)) as [Hlt | Hge];
    try reflexivity; try lia.
  destruct fuel2 as [| fuel2]; [lia |].
  destruct (lookup_lt_is_Some_2 segment offset Hlt) as [header Hh].
  destruct (read_table_cases segment offset header Hh)
    as [[_ Hr] | [Hfit (table & Hr & _)]]; rewrite Hr; [reflexivity |].
  rewrite (IH fuel2) by lia. reflexivity.
Qed.

Lemma dqt_enough_fuel (fuel : nat) (segment : list byte) (offset : nat) :
  (length segment - offset <= fuel)%nat ->
  snd (parse_quant_tables_loop fuel segment offset) <> OutOfFuel.
Proof.
  revert offset. induction fuel as [| fuel IH]; intros offset Hfuel;
    rewrite parse_quant_tables_loop_eq;
    destruct (Nat.ltb_spec offset (length segment)) as [Hlt | Hge];
    try discriminate; try lia.
  destruct (lookup_lt_is_Some_2 segment offset Hlt) as [header Hh].
  destruct (read_table_cases segment offset header Hh)
    as [[_ Hr] | [Hfit (table & Hr & _)]]; rewrite Hr; [discriminate |].
  specialize (IH (offset + 1 + table_bytes header)%nat).
  destruct (parse_quant_tables_loop fuel segment (offset + 1 + table_bytes header)).
  simpl in *. apply IH. lia.
Qed.

(** The decoder always comes to an end: it stops or it raises. *)
Lemma parse_quant_tables_total (segment : list byte) :
  snd (parse_quant_tables segment) <> OutOfFuel.
Proof. apply dqt_enough_fuel. lia. Qed.

Lemma read_table_app_shift (pre data : list byte) (offset : nat) :
  read_table (pre ++ data) (length pre + offset)
  = match read_table data offset with
    | Ok (table, offset') => Ok (table, (length pre + offset')%nat)
    | Raise e => Raise e
    | OutOfFuel => OutOfFuel
    end.
Proof.
  destruct (data !! offset) as [header |] eqn:Hh.
  - assert (Hh' : (pre ++ data) !! (length pre + offset)%nat = Some header).
    { rewrite lookup_app_r by lia. rewrite <- Hh. f_equal. lia. }
    rewrite (read_table_unfold _ _ _ Hh), (read_table_unfold _ _ _ Hh'). cbv zeta.
    replace (length pre + offset + 1)%nat with (length pre + (offset + 1))%nat by lia.
    replace (length pre + (offset + 1) + table_bytes header)%nat
      with (length pre + (offset + 1 + table_bytes header))%nat by lia.
    rewrite slice_app_shift.
    destruct (negb _); reflexivity.
  - unfold read_table. rewrite byte_at_app_shift. unfold byte_at. rewrite Hh.
    reflexivity.
Qed.

Lemma dqt_loop_app_shift (fuel : nat) (pre data : list byte) (offset : nat) :
  parse_quant_tables_loop fuel (pre ++ data) (length pre + offset)
  = parse_quant_tables_loop fuel data offset.
Proof.
  revert offset. induction fuel as [| fuel IH]; intros offset;
    rewrite (parse_quant_tables_loop_eq _ (pre ++ data));
    rewrite (parse_quant_tables_loop_eq _ data offset);
    rewrite length_app;
    destruct (Nat.ltb_spec offset (length data)) as [Hlt | Hge];
    destruct (Nat.ltb_spec (length pre + offset) (length pre + length data));
    try reflexivity; try lia.
  rewrite read_table_app_shift.
  destruct (read_table data offset) as [[table offset'] | e |]; try reflexivity.
  rewrite IH. reflexivity.
Qed.

Lemma dqt_loop_at_end (fuel : nat) (pre data : list byte) :
  parse_quant_tables_loop fuel (pre ++ data) (length pre)
  = parse_quant_tables_loop fuel data 0.
Proof.
  rewrite <- (dqt_loop_app_shift fuel pre data 0). f_equal. lia.
Qed.

Lemma read_table_app_within (segment rest : list byte) (offset : nat)
    (table : QuantTable.t) (offset' : nat) :
  (offset < length segment)%nat ->
  read_table segment offset = Ok (table, offset') ->
  read_table (segment ++ rest) offset = Ok (table, offset')
  /\ (offset < offset' <= length segment)%nat.
Proof.
  intros Hlt Hr.
  destruct (lookup_lt_is_Some_2 segment offset Hlt) as [header Hh].
  destruct (read_table_cases segment offset header Hh)
    as [[_ Hr'] | [Hfit (table' & Hr' & _)]]; rewrite Hr' in Hr; [discriminate |].
  injection Hr as -> <-. split; [| lia].
  rewrite <- Hr'.
  assert (Hh' : (segment ++ rest) !! offset = Some header)
    by (now apply lookup_app_l_Some).
  rewrite (read_table_unfold _ _ _ Hh), (read_table_unfold _ _ _ Hh').
  rewrite slice_app_within by lia. reflexivity.
Qed.

(** A payload made of a fully decoded part followed by more bytes: the
    tables of the first part, then whatever the rest decodes to. *)
Lemma dqt_loop_app (fuel : nat) (pre rest : list byte) (offset : nat)
    (tables : list QuantTable.t) :
  (length pre - offset <= fuel)%nat ->
  (offset <= length pre)%nat ->
  parse_quant_tables_loop fuel pre offset = (tables, Ok tt) ->
  parse_quant_tables_loop (fuel + length rest) (pre ++ rest) offset
  = (tables ++ fst (parse_quant_tables rest), snd (parse_quant_tables rest)).
Proof.
  revert offset tables.
  induction fuel as [| fuel IH]; intros offset tables Hfuel Hoff Hrun.
  - assert (offset = length pre) as -> by lia.
    rewrite parse_quant_tables_loop_eq in Hrun.
    rewrite Nat.ltb_irrefl in Hrun. injection Hrun as <-.
    rewrite dqt_loop_at_end.
    unfold parse_quant_tables. simpl.
    now destruct (parse_quant_tables_loop (length rest) rest 0).
  - rewrite parse_quant_tables_loop_eq in Hrun.
    destruct (Nat.ltb_spec offset (length pre)) as [Hlt | Hge].
    + destruct (read_table pre offset) as [[table offset'] | e |] eqn:Hr;
        try discriminate.
      destruct (read_table_app_within pre rest offset table offset' Hlt Hr)
        as [Hr' Hrange].
      destruct (parse_quant_tables_loop fuel pre offset') as [later fin] eqn:Hlater.
      injection Hrun as <- ->.
      rewrite parse_quant_tables_loop_eq. rewrite length_app.
      destruct (Nat.ltb_spec offset (length pre + length rest)); [| lia].
      cbn [Nat.add]. rewrite Hr'.
      rewrite (IH offset' later) by (assumption || lia). reflexivity.
    + assert (offset = length pre) as -> by lia.
      injection Hrun as <-.
      rewrite dqt_loop_at_end.
      unfold parse_quant_tables.
      rewrite (dqt_fuel_irrelevant (S fuel + length rest) (length rest)) by lia.
      now destruct (parse_quant_tables_loop (length rest) rest 0).
Qed.

Lemma parse_quant_tables_app (pre rest : list byte) :
  snd (parse_quant_tables pre) = Ok tt ->
  parse_quant_tables (pre ++ rest)
  = (fst (parse_quant_tables pre) ++ fst (parse_quant_tables rest),
     snd (parse_quant_tables rest)).
Proof.
  intros Hpre. destruct (parse_quant_tables pre) as [tables fin] eqn:Hrun.
  cbn [fst snd] in Hpre |- *. subst fin.
  unfold parse_quant_tables at 1. rewrite length_app.
  apply dqt_loop_app; [lia | lia | exact Hrun].
Qed.

(** C7. Every table the DQT decoder yields has exactly 64 coefficients, and
    the decoder raises "Incomplete DQT segment" whenever fewer bytes follow
    a table header than 64 times the size of a coefficient (2 bytes if the
    precision flag of the header is not zero, 1 byte otherwise); the tables
    before that header have been yielded. *)
Theorem dqt_decoder_complete_tables :
  (forall segment table,
      In table (fst (parse_quant_tables segment)) ->
      length (QuantTable.values table) = 64%nat)
  /\ (forall pre header rest,
        snd (parse_quant_tables pre) = Ok tt ->
        (length rest
         < 64 * (if truthy (Z.shiftr (int_of_byte header) 4) then 2 else 1))%nat ->
        parse_quant_tables (pre ++ header :: rest)
        = (fst (parse_quant_tables pre),
           Raise (JpegParseError "Incomplete DQT segment"))).
Proof.
  split.
  - intros segment table Hin.
    pose proof (tables_have_64_values (length segment) segment 0) as Hall.
    rewrite List.Forall_forall in Hall. now apply Hall.
  - intros pre header rest Hpre Hshort.
    rewrite (parse_quant_tables_app pre (header :: rest) Hpre).
    assert (Hrest : parse_quant_tables (header :: rest)
                    = ([], Raise (JpegParseError "Incomplete DQT segment"))).
    { unfold parse_quant_tables. rewrite parse_quant_tables_loop_eq.
      cbn [length]. destruct (Nat.ltb_spec 0 (S (length rest))); [| lia].
      destruct (read_table_cases (header :: rest) 0 header eq_refl)
        as [[_ Hr] | [Hfit _]].
      - rewrite Hr. reflexivity.
      - unfold table_bytes in Hfit. cbn [length] in Hfit. lia. }
    rewrite Hrest. cbn [fst snd]. now rewrite app_nil_r.
Qed.

Lemma dqt_decoder_complete_tables_witness :
  length (QuantTable.values (QuantTable.Build 0 0 (repeat 16 64))) = 64%nat
  /\ parse_quant_tables ((x00 :: repeat x10 64) ++ x11 :: repeat x01 100)
     = ([QuantTable.Build 0 0 (repeat 16 64)],
        Raise (JpegParseError "Incomplete DQT segment")).
Proof.
  destruct dqt_decoder_complete_tables as [H64 Hshort]. split.
  - apply (H64 (x00 :: repeat x10 64)). vm_compute. left. reflexivity.
  - apply (Hshort (x00 :: repeat x10 64) x11 (repeat x01 100)).
    + vm_compute. reflexivity.
    + simpl. lia.
Defined.

(** ** The digest of a table *)

Lemma byte_of_int_in_range (v : Z) :
  0 <= v < 256 -> byte_of_int v = Some (single_byte v).
Proof.
  intros Hv. unfold byte_of_int, single_byte.
  destruct (Z.leb_spec 0 v); [| lia]. destruct (Z.ltb_spec v 256); [| lia].
  cbn [andb]. rewrite Z.mod_small by lia.
  destruct (Byte.of_N (Z.to_N v)) eqn:Hb; [reflexivity |].
  apply Byte.of_N_None_iff in Hb. lia.
Qed.

Lemma bytes_of_ints_in_range (values : list Z) :
  Forall (fun v => 0 <= v < 256) values ->
  bytes_of_ints values = Ok (map single_byte values).
Proof.
  unfold bytes_of_ints. induction 1 as [| v values Hv _ IH]; simpl.
  - reflexivity.
  - rewrite (byte_of_int_in_range v Hv). simpl. rewrite IH. reflexivity.
Qed.

Lemma pack_H_in_range (v : Z) :
  0 <= v < 65536 -> pack_H v = Ok (big_endian_16 v).
Proof.
  intros Hv. unfold pack_H, big_endian_16.
  rewrite Z.shiftr_div_pow2 by lia.
  change 255 with (Z.ones 8). rewrite Z.land_ones by lia.
  change (2 ^ 8) with 256.
  assert (H1 : 0 <= v / 256 < 256).
  { split; [apply Z.div_pos; lia | apply Z.div_lt_upper_bound; lia]. }
  assert (H2 : 0 <= v mod 256 < 256) by (apply Z.mod_pos_bound; lia).
  rewrite (byte_of_int_in_range _ H1), (byte_of_int_in_range _ H2).
  destruct (Z.leb_spec 0 v); [| lia].
  f_equal. f_equal. f_equal. unfold single_byte. now rewrite Z.mod_mod by lia.
Qed.

Lemma result_map_pack_H (values : list Z) :
  Forall (fun v => 0 <= v < 65536) values ->
  result_map pack_H values = Ok (map big_endian_16 values).
Proof.
  induction 1 as [| v values Hv _ IH]; simpl.
  - reflexivity.
  - rewrite (pack_H_in_range v Hv). simpl. rewrite IH. reflexivity.
Qed.

Lemma decoded_table_values (table : QuantTable.t) :
  decoded_table table = true ->
  length (QuantTable.values table) = 64%nat
  /\ Forall (fun v => 0 <= v < coefficient_bound (QuantTable.precision table))
       (QuantTable.values table).
Proof.
  unfold decoded_table. rewrite andb_true_iff, Nat.eqb_eq, forallb_forall.
  intros [Hlen Hall]. split; [exact Hlen |].
  apply List.Forall_forall. intros v Hin. specialize (Hall v Hin). lia.
Qed.

Lemma length_le_bytes (n : nat) (x : Z) : length (hashlib.le_bytes n x) = n.
Proof. unfold hashlib.le_bytes. now rewrite length_map, length_seq. Qed.

Lemma le_bytes_range (n : nat) (x : Z) :
  Forall (fun b => 0 <= b < 256) (hashlib.le_bytes n x).
Proof.
  unfold hashlib.le_bytes. apply List.Forall_forall. intros b Hb.
  apply in_map_iff in Hb. destruct Hb as (k & <- & _).
  apply Z.mod_pos_bound. lia.
Qed.

(** The hash has 128 bits. *)
Lemma length_digest (raw : list byte) : length (hashlib.digest raw) = 16%nat.
Proof.
  unfold hashlib.digest.
  destruct (hashlib.blocks _ _ _) as [[[a b] c] d].
  now rewrite !length_app, !length_le_bytes.
Qed.

Lemma digest_range (raw : list byte) :
  Forall (fun b => 0 <= b < 256) (hashlib.digest raw).
Proof.
  unfold hashlib.digest.
  destruct (hashlib.blocks _ _ _) as [[[a b] c] d].
  repeat apply Forall_app_2; apply le_bytes_range.
Qed.

Lemma upper_hex_digit (v : Z) :
  0 <= v < 16 -> upper_char (hashlib.hex_digit true v) = hashlib.hex_digit false v.
Proof.
  intros Hv.
  assert (Hcases : v = 0 \/ v = 1 \/ v = 2 \/ v = 3 \/ v = 4 \/ v = 5 \/ v = 6 \/ v = 7
                   \/ v = 8 \/ v = 9 \/ v = 10 \/ v = 11 \/ v = 12 \/ v = 13 \/ v = 14
                   \/ v = 15) by lia.
  repeat (destruct Hcases as [-> | Hcases]; [reflexivity |]). subst v. reflexivity.
Qed.

(** [upper] turns the lower-case hexadecimal text of bytes into the
    upper-case one. *)
Lemma upper_hex (bs : list Z) :
  Forall (fun b => 0 <= b < 256) bs -> upper (hashlib.hex true bs) = hashlib.hex false bs.
Proof.
  induction 1 as [| b bs Hb _ IH]; simpl.
  - reflexivity.
  - rewrite IH, !upper_hex_digit; [reflexivity | |].
    + apply Z.mod_pos_bound. lia.
    + split; [apply Z.div_pos; lia | apply Z.div_lt_upper_bound; lia].
Qed.

Lemma length_concat_be16 (values : list Z) :
  length (concat (map big_endian_16 values)) = (2 * length values)%nat.
Proof. induction values as [| v values IH]; simpl in *; lia. Qed.

(** C6. The digest of a table is the upper-case hexadecimal text of the
    128-bit hash (MD5) of its canonical byte sequence: its 64 coefficients
    in stream order, one byte each at precision 0 and two bytes each, most
    significant first, at precision 1. *)
Theorem table_digest_canonical (table : QuantTable.t) (raw : list byte) :
  decoded_table table = true ->
  canonical_bytes table = Some raw ->
  QuantTable.md5 table = Ok (hashlib.hex false (hashlib.digest raw))
  /\ length (hashlib.digest raw) = 16%nat
  /\ length raw = if QuantTable.precision table =? 0 then 64%nat else 128%nat.
Proof.
  intros Hdec Hcanon. apply decoded_table_values in Hdec. destruct Hdec as [Hlen Hall].
  unfold canonical_bytes in Hcanon. unfold QuantTable.md5, coefficient_bound in *.
  destruct (QuantTable.precision table =? 0) eqn:Hp.
  - injection Hcanon as <-. rewrite (bytes_of_ints_in_range _ Hall). cbn [result_bind].
    rewrite length_map, Hlen. unfold hashlib.hexdigest.
    rewrite upper_hex by apply digest_range.
    repeat split. apply length_digest.
  - destruct (QuantTable.precision table =? 1); [| discriminate].
    injection Hcanon as <-. rewrite (result_map_pack_H _ Hall). cbn [result_bind].
    unfold hashlib.hexdigest. rewrite upper_hex by apply digest_range.
    repeat split; [apply length_digest |].
    rewrite length_concat_be16, Hlen. reflexivity.
Qed.

Lemma table_digest_canonical_witness :
  QuantTable.md5 (QuantTable.Build 2 0 (repeat 16 64))
  = Ok (hashlib.hex false (hashlib.digest (repeat x10 64)))
  /\ QuantTable.md5 (QuantTable.Build 1 1 (repeat 258 64))
     = Ok (hashlib.hex false (hashlib.digest (concat (repeat [x01; x02] 64)))).
Proof.
  split.
  - apply (table_digest_canonical (QuantTable.Build 2 0 (repeat 16 64)) (repeat x10 64));
      vm_compute; reflexivity.
  - apply (table_digest_canonical (QuantTable.Build 1 1 (repeat 258 64))
             (concat (repeat [x01; x02] 64))); vm_compute; reflexivity.
Defined.

Example flat_table_decoded :
  parse_quant_tables (x00 :: repeat x10 64) = ([flat_table 0 16], Ok tt).
Proof. vm_compute. reflexivity. Qed.

Example digest_of_flat_table :
  QuantTable.md5 (QuantTable.Build 0 0 (repeat 16 64))
  = Ok "03864632648E248F36683D21F92FE764".
Proof. vm_compute. reflexivity. Qed.

(** C8. The digest of a table is a function of its precision and of its
    coefficients alone: two tables that agree on both have the same digest,
    whatever their identifiers and wherever they were read, and computing
    the digest of a table again gives the same result. *)
Theorem digest_stable (a b : QuantTable.t) :
  QuantTable.precision a = QuantTable.precision b ->
  QuantTable.values a = QuantTable.values b ->
  QuantTable.md5 a = QuantTable.md5 b.
Proof.
  intros Hp Hv. unfold QuantTable.md5. rewrite Hp, Hv. reflexivity.
Qed.

Lemma digest_stable_witness :
  QuantTable.md5 (QuantTable.Build 0 0 (repeat 16 64))
  = QuantTable.md5 (QuantTable.Build 3 0 (repeat 16 64)).
Proof.
  apply (digest_stable (QuantTable.Build 0 0 (repeat 16 64))
           (QuantTable.Build 3 0 (repeat 16 64))); reflexivity.
Defined.

(** The digest of a decoded table is always defined. *)
Lemma md5_decoded (table : QuantTable.t) :
  decoded_table table = true -> exists digest, QuantTable.md5 table = Ok digest.
Proof.
  intros Hdec. apply decoded_table_values in Hdec. destruct Hdec as [_ Hall].
  unfold QuantTable.md5, coefficient_bound in *.
  destruct (QuantTable.precision table =? 0).
  - rewrite (bytes_of_ints_in_range _ Hall). eexists. reflexivity.
  - rewrite (result_map_pack_H _ Hall). eexists. reflexivity.
Qed.

Lemma result_map_md5_decoded (tables : list QuantTable.t) :
  Forall (fun table => decoded_table table = true) tables ->
  exists digests,
    result_map QuantTable.md5 tables = Ok digests /\ length digests = length tables.
Proof.
  induction 1 as [| table tables Hdec _ (digests & IH & Hlen)]; simpl.
  - exists []. split; reflexivity.
  - destruct (md5_decoded table Hdec) as [d Hd]. rewrite Hd, IH. simpl.
    exists (d :: digests). split; [reflexivity | simpl; now rewrite Hlen].
Qed.

Lemma result_map_lookup {A B : Type} (f : A -> result B) (l : list A) (ys : list B)
    (i : nat) (x : A) :
  result_map f l = Ok ys -> l !! i = Some x ->
  exists y, f x = Ok y /\ ys !! i = Some y.
Proof.
  revert ys i. induction l as [| a l IH]; intros ys i Hmap Hx; [discriminate |].
  simpl in Hmap.
  inv_bind Hmap as (b & Hb & Hmap).
  inv_bind Hmap as (bs & Hbs & Hmap).
  injection Hmap as <-.
  destruct i as [| i]; simpl in Hx.
  - injection Hx as <-. exists b. split; [exact Hb | reflexivity].
  - apply (IH bs i Hbs Hx).
Qed.

(** ** Digest pairs *)

Lemma insert_by_id_perm (table : QuantTable.t) (sorted : list QuantTable.t) :
  Permutation (insert_by_id table sorted) (table :: sorted).
Proof.
  induction sorted as [| other sorted IH]; simpl.
  - reflexivity.
  - destruct (QuantTable.table_id table <=? QuantTable.table_id other).
    + reflexivity.
    + rewrite IH. apply perm_swap.
Qed.

Lemma sorted_by_id_perm (tables : list QuantTable.t) :
  Permutation (sorted_by_id tables) tables.
Proof.
  induction tables as [| table tables IH]; simpl.
  - reflexivity.
  - rewrite insert_by_id_perm. now apply perm_skip.
Qed.

Lemma insert_by_id_ascending (table : QuantTable.t) (sorted : list QuantTable.t) :
  ascending_ids sorted -> ascending_ids (insert_by_id table sorted).
Proof.
  unfold ascending_ids. induction 1 as [| other sorted Hsorted IH Hall]; simpl.
  - constructor; constructor.
  - destruct (Z.leb_spec (QuantTable.table_id table) (QuantTable.table_id other))
      as [Hle | Hgt].
    + constructor; [now constructor |].
      constructor; [exact Hle |].
      eapply Forall_impl; [exact Hall |]. simpl. intros; lia.
    + constructor; [exact IH |].
      rewrite insert_by_id_perm. constructor; [lia | exact Hall].
Qed.

Lemma sorted_by_id_ascending (tables : list QuantTable.t) :
  ascending_ids (sorted_by_id tables).
Proof.
  induction tables as [| table tables IH]; simpl.
  - constructor.
  - now apply insert_by_id_ascending.
Qed.

(** The loop of lines 261-264, once [done] has been visited and [todo]
    remains: it appends the pairs of the remaining digests. *)
Lemma hash_pairs_loop_spec (todo done : list QuantTable.t) (pairs : list hash_pair)
    (digests : list string) :
  result_map QuantTable.md5 todo = Ok digests ->
  hash_pairs_loop (done ++ todo) pairs (length done) todo
  = Ok (pairs ++ pairs_of_digests digests).
Proof.
  revert done pairs digests.
  induction todo as [| table todo IH]; intros done pairs digests Hmap.
  - injection Hmap as <-. simpl. now rewrite app_nil_r.
  - simpl in Hmap.
    inv_bind Hmap as (d & Hd & Hmap).
    inv_bind Hmap as (ds & Hds & Hmap).
    injection Hmap as <-.
    cbn [hash_pairs_loop]. unfold hash_pairs_step. rewrite Hd. cbn [result_bind].
    rewrite length_app.
    destruct todo as [| next todo]; cbn [length].
    + destruct (Nat.ltb_spec (length done + 1) (length done + 1)); [lia |].
      injection Hds as <-. simpl. reflexivity.
    + destruct (Nat.ltb_spec (length done + 1) (length done + S (S (length todo))));
        [| lia].
      assert (Hnext : (done ++ table :: next :: todo) !! (length done + 1)%nat = Some next).
      { rewrite lookup_app_r by lia.
        replace (length done + 1 - length done)%nat with 1%nat by lia. reflexivity. }
      rewrite Hnext.
      destruct (result_map_lookup _ _ _ 0%nat next Hds eq_refl) as (d' & Hd' & Hhead).
      rewrite Hd'. cbn [result_bind].
      specialize (IH (done ++ [table]) ((pairs ++ [(d, None)]) ++ [(d, Some d')]) ds Hds).
      rewrite <- app_assoc in IH. cbn [app] in IH.
      rewrite length_app in IH. cbn [length] in IH.
      replace (S (length done)) with (length done + 1)%nat by lia.
      rewrite IH.
      destruct ds as [| d0 ds]; [discriminate |]. injection Hhead as ->.
      cbn [pairs_of_digests]. rewrite <- !app_assoc. reflexivity.
Qed.

Lemma quant_hash_pairs_spec (ordered : list QuantTable.t) (digests : list string) :
  result_map QuantTable.md5 ordered = Ok digests ->
  quant_hash_pairs ordered = Ok (pairs_of_digests digests).
Proof.
  intros Hmap. unfold quant_hash_pairs.
  apply (hash_pairs_loop_spec ordered [] [] digests Hmap).
Qed.

Lemma singles_of_digests (digests : list string) :
  length (List.filter is_single (pairs_of_digests digests)) = length digests.
Proof.
  induction digests as [| d [| d' digests] IH]; simpl in *; try reflexivity.
  now rewrite IH.
Qed.

Lemma doubles_of_digests (digests : list string) :
  length (List.filter (fun pair => negb (is_single pair)) (pairs_of_digests digests))
  = (length digests - 1)%nat.
Proof.
  induction digests as [| d [| d' digests] IH]; simpl in *; try reflexivity.
  rewrite IH. lia.
Qed.

Lemma digest_pairs_loop_defined (tables : list QuantTable.t) :
  Forall (fun table => decoded_table table = true) tables ->
  exists digests,
    result_map QuantTable.md5 (sorted_by_id tables) = Ok digests
    /\ quant_hash_pairs (sorted_by_id tables) = Ok (pairs_of_digests digests).
Proof.
  intros Hdec.
  assert (Hsorted : Forall (fun table => decoded_table table = true)
                      (sorted_by_id tables)).
  { rewrite List.Forall_forall in Hdec |- *. intros table Hin. apply Hdec.
    apply (Permutation_in table (sorted_by_id_perm tables) Hin). }
  destruct (result_map_md5_decoded _ Hsorted) as (digests & Hmap & _).
  exists digests. split; [exact Hmap | now apply quant_hash_pairs_spec].
Qed.

(** C5. The tables are put in ascending order of identifier; from N of
    them the loop makes N pairs with a single digest and N - 1 pairs with
    two, laid out as [(digest_i, none)] followed, when table i+1 exists, by
    [(digest_i, digest_(i+1))]; from no table it makes no pair, and the
    lookup over no pair finds no match. *)
Theorem digest_pairs_generated (tables : list QuantTable.t) :
  Forall (fun table => decoded_table table = true) tables ->
  Permutation (sorted_by_id tables) tables
  /\ ascending_ids (sorted_by_id tables)
  /\ (exists digests,
        result_map QuantTable.md5 (sorted_by_id tables) = Ok digests
        /\ quant_hash_pairs (sorted_by_id tables) = Ok (pairs_of_digests digests)
        /\ length (List.filter is_single (pairs_of_digests digests)) = length tables
        /\ length (List.filter (fun pair => negb (is_single pair))
                     (pairs_of_digests digests))
           = (length tables - 1)%nat)
  /\ quant_hash_pairs (sorted_by_id []) = Ok []
  /\ (forall signatures, find_signature_matches signatures [] = []).
Proof.
  intros Hdec.
  split; [apply sorted_by_id_perm |].
  split; [apply sorted_by_id_ascending |].
  split.
  - assert (Hsorted : Forall (fun table => decoded_table table = true)
                        (sorted_by_id tables)).
    { rewrite List.Forall_forall in Hdec |- *. intros table Hin. apply Hdec.
      apply (Permutation_in table (sorted_by_id_perm tables) Hin). }
    destruct (result_map_md5_decoded _ Hsorted) as (digests & Hmap & Hlen).
    exists digests. split; [exact Hmap |].
    split; [now apply quant_hash_pairs_spec |].
    rewrite singles_of_digests, doubles_of_digests, Hlen.
    rewrite (Permutation_length (sorted_by_id_perm tables)). split; reflexivity.
  - split; [reflexivity |].
    intros signatures. now rewrite find_signature_matches_concat.
Qed.

Lemma digest_pairs_generated_witness :
  sorted_by_id two_tables = [flat_table 0 16; flat_table 1 17]
  /\ exists digests,
       quant_hash_pairs (sorted_by_id two_tables) = Ok (pairs_of_digests digests)
       /\ length (List.filter is_single (pairs_of_digests digests)) = 2%nat
       /\ length (List.filter (fun pair => negb (is_single pair))
                    (pairs_of_digests digests)) = 1%nat.
Proof.
  split; [reflexivity |].
  destruct (digest_pairs_generated two_tables) as (_ & _ & (digests & _ & H) & _).
  - repeat constructor.
  - exists digests. exact H.
Defined.

(** ** Adjacent tables and the match list *)

Lemma pairs_of_digests_adjacent (digests : list string) (i : nat) (d d' : string) :
  digests !! i = Some d -> digests !! S i = Some d' ->
  exists before after,
    pairs_of_digests digests = before ++ (d, None) :: (d, Some d') :: after.
Proof.
  revert i. induction digests as [| d0 digests IH]; intros i Hd Hd'; [discriminate |].
  destruct i as [| i]; simpl in Hd, Hd'.
  - injection Hd as ->. destruct digests as [| d1 digests]; [discriminate |].
    injection Hd' as ->. exists [], (pairs_of_digests (d' :: digests)). reflexivity.
  - destruct (IH i Hd Hd') as (before & after & Hpairs).
    cbn [pairs_of_digests]. rewrite Hpairs.
    exists ((d0, None)
            :: match digests with [] => [] | d1 :: _ => [(d0, Some d1)] end ++ before),
      after.
    cbn [app]. now rewrite <- app_assoc.
Qed.

Lemma matching_record_listed (sigs : list Signature.t) (sig : Signature.t)
    (pair : hash_pair) :
  In sig sigs -> pair_matches sig pair = true ->
  exists before after,
    map Signature.to_dict (List.filter (fun s => pair_matches s pair) sigs)
    = before ++ Signature.to_dict sig :: after.
Proof.
  intros Hin Hmatch.
  assert (Hfil : In sig (List.filter (fun s => pair_matches s pair) sigs))
    by (apply filter_In; now split).
  apply in_split in Hfil. destruct Hfil as (l1 & l2 & ->).
  rewrite map_app. simpl. eauto.
Qed.

(** C10. A record whose luminance digest is the digest of table i and
    whose chrominance digest is the digest of table i+1 is listed at least
    twice among the matches: the pair [(digest_i, none)] matches it, since a
    pair without a second digest matches whatever the chrominance digest of
    the record, and so does the pair [(digest_i, digest_(i+1))] that
    follows. *)
Theorem adjacent_record_listed_twice (tables : list QuantTable.t)
    (signatures : list Signature.t) (sig : Signature.t) (i : nat)
    (table next : QuantTable.t) :
  Forall (fun table => decoded_table table = true) tables ->
  sorted_by_id tables !! i = Some table ->
  sorted_by_id tables !! S i = Some next ->
  In sig signatures ->
  QuantTable.md5 table = Ok (Signature.hash_y sig) ->
  QuantTable.md5 next = Ok (Signature.hash_c sig) ->
  exists earlier later,
    quant_hash_pairs (sorted_by_id tables)
    = Ok (earlier
          ++ (Signature.hash_y sig, None)
             :: (Signature.hash_y sig, Some (Signature.hash_c sig)) :: later)
    /\ pair_matches sig (Signature.hash_y sig, None) = true
    /\ pair_matches sig (Signature.hash_y sig, Some (Signature.hash_c sig)) = true
    /\ exists before between after,
         find_signature_matches signatures
           (earlier
            ++ (Signature.hash_y sig, None)
               :: (Signature.hash_y sig, Some (Signature.hash_c sig)) :: later)
         = before ++ Signature.to_dict sig :: between ++ Signature.to_dict sig :: after.
Proof.
  intros Hdec Hi Hnext Hin Hy Hc.
  destruct (digest_pairs_loop_defined tables Hdec) as (digests & Hmap & Hpairs).
  destruct (result_map_lookup _ _ _ _ _ Hmap Hi) as (d & Hd & Hdi).
  destruct (result_map_lookup _ _ _ _ _ Hmap Hnext) as (d' & Hd' & Hdi').
  rewrite Hy in Hd. injection Hd as <-. rewrite Hc in Hd'. injection Hd' as <-.
  destruct (pairs_of_digests_adjacent digests i _ _ Hdi Hdi')
    as (earlier & later & Hshape).
  exists earlier, later. rewrite Hpairs, Hshape.
  assert (Hsingle : pair_matches sig (Signature.hash_y sig, None) = true).
  { apply pair_matches_iff. simpl. auto. }
  assert (Hdouble :
            pair_matches sig (Signature.hash_y sig, Some (Signature.hash_c sig)) = true).
  { apply pair_matches_iff. simpl. auto. }
  repeat split; try assumption.
  rewrite find_signature_matches_concat, map_app, concat_app. cbn [map concat].
  destruct (matching_record_listed signatures sig _ Hin Hsingle) as (a1 & a2 & ->).
  destruct (matching_record_listed signatures sig _ Hin Hdouble) as (b1 & b2 & ->).
  match goal with
  | |- exists _ _ _, ?E ++ _ ++ _ ++ ?L = _ => exists (E ++ a1), (a2 ++ b1), (b2 ++ L)
  end.
  repeat (rewrite <- app_assoc || rewrite <- app_comm_cons). reflexivity.
Qed.

Lemma adjacent_record_listed_twice_witness :
  exists earlier later before between after,
    quant_hash_pairs (sorted_by_id two_tables)
    = Ok (earlier
          ++ (Signature.hash_y sample_signature, None)
             :: (Signature.hash_y sample_signature,
                 Some (Signature.hash_c sample_signature)) :: later)
    /\ find_signature_matches [sample_signature]
         (earlier
          ++ (Signature.hash_y sample_signature, None)
             :: (Signature.hash_y sample_signature,
                 Some (Signature.hash_c sample_signature)) :: later)
       = before ++ Signature.to_dict sample_signature
         :: between ++ Signature.to_dict sample_signature :: after.
Proof.
  destruct (adjacent_record_listed_twice two_tables [sample_signature] sample_signature
              0%nat (flat_table 0 16) (flat_table 1 17))
    as (earlier & later & Hpairs & _ & _ & before & between & after & Hmatches).
  - repeat constructor.
  - reflexivity.
  - reflexivity.
  - left. reflexivity.
  - vm_compute. reflexivity.
  - vm_compute. reflexivity.
  - exists earlier, later, before, between, after. split; assumption.
Defined.

Example sample_matches :
  (let* pairs := quant_hash_pairs (sorted_by_id two_tables) in
   Ok (find_signature_matches [sample_signature] pairs))
  = Ok [Signature.to_dict sample_signature; Signature.to_dict sample_signature].
Proof. vm_compute. reflexivity. Qed.

(** ** The marker scanner *)

Lemma skip_fill_loop_ge (rest : list byte) (offset : nat) :
  (offset <= skip_fill_loop rest offset)%nat.
Proof.
  revert offset. induction rest as [| b rest IH]; intros offset; simpl.
  - lia.
  - destruct (int_of_byte b =? 0xFF); [| lia].
    specialize (IH (S offset)). lia.
Qed.

Lemma skip_fill_ge (data : list byte) (offset : nat) :
  (offset <= skip_fill data offset)%nat.
Proof. apply skip_fill_loop_ge. Qed.

Lemma slice_two (data : list byte) (offset : nat) :
  (offset + 2 <= length data)%nat ->
  slice data offset (offset + 2) = [nth offset data x00; nth (S offset) data x00].
Proof.
  intros Hlen. unfold slice.
  replace (offset + 2 - offset)%nat with 2%nat by lia.
  rewrite !nth_lookup.
  pose proof (lookup_drop data offset 0) as H0.
  pose proof (lookup_drop data offset 1) as H1.
  pose proof (length_drop data offset) as Hd.
  rewrite Nat.add_0_r in H0. replace (offset + 1)%nat with (S offset) in H1 by lia.
  destruct (drop offset data) as [| a [| b rest]]; simpl in Hd; try lia.
  simpl in H0, H1. rewrite <- H0, <- H1. reflexivity.
Qed.

Lemma read_uint16_cases (data : list byte) (offset : nat) :
  ((length data < offset + 2)%nat ->
   read_uint16 data offset
   = Raise (JpegParseError "Unexpected end of data while reading uint16"))
  /\ ((offset + 2 <= length data)%nat ->
      read_uint16 data offset = Ok (declared_length data offset, (offset + 2)%nat)).
Proof.
  unfold read_uint16.
  destruct (Nat.ltb_spec (length data) (offset + 2)) as [Hlt | Hge]; split; intros H;
    try lia; try reflexivity.
  rewrite slice_two by exact H. reflexivity.
Qed.

(** What lines 193-197 do with the segment whose length field is at
    [offset]. *)
Lemma read_segment_cases (data : list byte) (offset : nat) :
  ((length data < offset + 2)%nat ->
   read_segment data offset
   = Raise (JpegParseError "Unexpected end of data while reading uint16"))
  /\ ((offset + 2 <= length data)%nat -> declared_length data offset < 2 ->
      read_segment data offset = Raise (JpegParseError "Invalid segment length"))
  /\ ((offset + 2 <= length data)%nat -> 2 <= declared_length data offset ->
      read_segment data offset
      = Ok (slice data (offset + 2) (offset + Z.to_nat (declared_length data offset)),
            (offset + Z.to_nat (declared_length data offset))%nat)).
Proof.
  destruct (read_uint16_cases data offset) as [Hshort Hread].
  unfold read_segment. repeat split.
  - intros H. rewrite (Hshort H). reflexivity.
  - intros H Hsmall. rewrite (Hread H). cbn [result_bind].
    destruct (Z.ltb_spec (declared_length data offset) 2); [reflexivity | lia].
  - intros H Hbig. rewrite (Hread H). cbn [result_bind].
    destruct (Z.ltb_spec (declared_length data offset) 2); [lia |].
    replace (offset + 2 + Z.to_nat (declared_length data offset) - 2)%nat
      with (offset + Z.to_nat (declared_length data offset))%nat by lia.
    reflexivity.
Qed.

(** The turn of the loop that meets a marker with a payload: after the
    fill bytes, the marker code at [p], then the segment. *)
Lemma scan_marker_segment (data : list byte) (offset p : nat) (m : byte) :
  data !! offset = Some xff ->
  skip_fill data offset = p ->
  data !! p = Some m ->
  Z.lor 0xFF00 (int_of_byte m) <> 0xFFD9 ->
  standalone (Z.lor 0xFF00 (int_of_byte m)) = false ->
  scan_marker data offset
  = let* (segment_data, offset') := read_segment data (p + 1) in
    Ok (Segment (Z.lor 0xFF00 (int_of_byte m)) segment_data offset').
Proof.
  intros Hff Hp Hm Heoi Hstand. unfold scan_marker, byte_at.
  rewrite Hff. cbn [result_bind]. change (int_of_byte xff =? 0xFF) with true.
  cbn [negb]. rewrite Hp.
  pose proof (lookup_lt_Some _ _ _ Hm) as Hlt.
  destruct (Nat.leb_spec (length data) p); [lia |].
  rewrite Hm. cbn [result_bind]. rewrite Hstand.
  destruct (Z.eqb_spec (Z.lor 0xFF00 (int_of_byte m)) 0xFFD9); [contradiction |].
  reflexivity.
Qed.

(** C2, as stated, fails: the APP0 segment of [truncated_file] declares 16
    bytes and the buffer ends after 7 of them; no error is raised and the
    payload is cut short to the 5 bytes that are there. *)
Lemma segment_length_rule_refuted : ~ segment_length_rule truncated_file 14.
Proof.
  intros [Hfail _].
  destruct Hfail as [msg Hmsg].
  - right. right. vm_compute. lia.
  - vm_compute in Hmsg. discriminate.
Qed.

Example truncated_file_accepted :
  parse_jpeg truncated_file
  = Ok (SofData.Build 8 100 100 3, [], <["hasJFIF" := true]> (info_flags initial_state)).
Proof. vm_compute. reflexivity. Qed.

(** What the scanner hands over at a marker that is neither EOI nor
    standalone, once the length field is read and at least 2: the bytes
    from the end of the length field to the declared end of the segment or
    to the end of the buffer, whichever comes first. *)
Lemma segment_payload (data : list byte) (offset p : nat) (m : byte) :
  data !! offset = Some xff ->
  skip_fill data offset = p ->
  data !! p = Some m ->
  Z.lor 0xFF00 (int_of_byte m) <> 0xFFD9 ->
  standalone (Z.lor 0xFF00 (int_of_byte m)) = false ->
  (p + 3 <= length data)%nat ->
  2 <= declared_length data (p + 1) ->
  scan_marker data offset
  = Ok (Segment (Z.lor 0xFF00 (int_of_byte m))
          (slice data (p + 3) (p + 1 + Z.to_nat (declared_length data (p + 1))))
          (p + 1 + Z.to_nat (declared_length data (p + 1))))
  /\ length (slice data (p + 3) (p + 1 + Z.to_nat (declared_length data (p + 1))))
     = Nat.min (Z.to_nat (declared_length data (p + 1)) - 2) (length data - (p + 3)).
Proof.
  intros Hff Hp Hm Heoi Hstand Hlen Hd.
  rewrite (scan_marker_segment data offset p m Hff Hp Hm Heoi Hstand).
  destruct (read_segment_cases data (p + 1)) as (_ & _ & Hok).
  rewrite Hok by (lia || assumption). cbn [result_bind].
  replace (p + 1 + 2)%nat with (p + 3)%nat by lia.
  split; [reflexivity |]. rewrite length_slice. lia.
Qed.

(** C2, amended.  At a marker that is neither EOI nor standalone, the
    scanner raises when the two-byte big-endian length field runs past the
    end of the buffer and when the declared length is below 2; otherwise,
    when the declared payload lies within the buffer, the payload handed to
    the decoders has exactly the declared length minus 2 bytes: those that
    follow the length field. *)
Theorem segment_length_checked (data : list byte) (offset p : nat) (m : byte) :
  data !! offset = Some xff ->
  skip_fill data offset = p ->
  data !! p = Some m ->
  Z.lor 0xFF00 (int_of_byte m) <> 0xFFD9 ->
  standalone (Z.lor 0xFF00 (int_of_byte m)) = false ->
  ((length data < p + 3)%nat ->
   scan_marker data offset
   = Raise (JpegParseError "Unexpected end of data while reading uint16"))
  /\ ((p + 3 <= length data)%nat -> declared_length data (p + 1) < 2 ->
      scan_marker data offset = Raise (JpegParseError "Invalid segment length"))
  /\ ((p + 3 <= length data)%nat -> 2 <= declared_length data (p + 1) ->
      (p + 1 + Z.to_nat (declared_length data (p + 1)) <= length data)%nat ->
      exists payload,
        scan_marker data offset
        = Ok (Segment (Z.lor 0xFF00 (int_of_byte m)) payload
                (p + 1 + Z.to_nat (declared_length data (p + 1))))
        /\ payload = slice data (p + 3) (p + 1 + Z.to_nat (declared_length data (p + 1)))
        /\ Z.of_nat (length payload) = declared_length data (p + 1) - 2).
Proof.
  intros Hff Hp Hm Heoi Hstand. repeat split.
  - intros H. rewrite (scan_marker_segment data offset p m Hff Hp Hm Heoi Hstand).
    destruct (read_segment_cases data (p + 1)) as (Hshort & _).
    rewrite Hshort by lia. reflexivity.
  - intros H Hd. rewrite (scan_marker_segment data offset p m Hff Hp Hm Heoi Hstand).
    destruct (read_segment_cases data (p + 1)) as (_ & Hsmall & _).
    rewrite Hsmall by (lia || assumption). reflexivity.
  - intros H Hd Hfit.
    destruct (segment_payload data offset p m Hff Hp Hm Heoi Hstand H Hd)
      as [Hscan Hlength].
    eexists. split; [exact Hscan |]. split; [reflexivity |]. lia.
Qed.

Lemma segment_length_checked_witness :
  scan_marker (soi ++ sof_100x100 ++ eoi) 2
  = Ok (Segment 0xFFC0 [x08; x00; x64; x00; x64; x03] 12)
  /\ scan_marker [xff; xd8; xff; xe1; x00] 2
     = Raise (JpegParseError "Unexpected end of data while reading uint16")
  /\ scan_marker [xff; xd8; xff; xe1; x00; x01; x00] 2
     = Raise (JpegParseError "Invalid segment length").
Proof.
  assert (Hc0 : Z.lor 0xFF00 (int_of_byte xc0) <> 0xFFD9) by (vm_compute; discriminate).
  assert (He1 : Z.lor 0xFF00 (int_of_byte xe1) <> 0xFFD9) by (vm_compute; discriminate).
  split; [| split].
  - destruct (segment_length_checked (soi ++ sof_100x100 ++ eoi) 2 3 xc0
                eq_refl eq_refl eq_refl Hc0 eq_refl) as (_ & _ & Hok).
    destruct Hok as (payload & Hscan & Hpayload & _).
    + simpl. lia.
    + vm_compute. discriminate.
    + vm_compute. lia.
    + rewrite Hscan, Hpayload. reflexivity.
  - destruct (segment_length_checked [xff; xd8; xff; xe1; x00] 2 3 xe1
                eq_refl eq_refl eq_refl He1 eq_refl) as (Hshort & _).
    apply Hshort. simpl. lia.
  - destruct (segment_length_checked [xff; xd8; xff; xe1; x00; x01; x00] 2 3 xe1
                eq_refl eq_refl eq_refl He1 eq_refl) as (_ & Hsmall & _).
    apply Hsmall; [simpl; lia | vm_compute; reflexivity].
Defined.

(** ** The main loop *)

Lemma parse_loop_eq (fuel : nat) (data : list byte) (offset : nat) (st : parse_state) :
  parse_loop fuel data offset st
  = if (offset <? length data)%nat then
      match fuel with
      | O => OutOfFuel
      | S fuel' =>
          let* ev := scan_marker data offset in
          match ev with
          | Skip offset' => parse_loop fuel' data offset' st
          | Stop => Ok st
          | Segment marker segment_data offset' =>
              let* st' := decode_segment marker segment_data st in
              parse_loop fuel' data offset' st'
          end
      end
    else Ok st.
Proof. destruct fuel; reflexivity. Qed.

Lemma scan_segments_loop_eq (fuel : nat) (data : list byte) (offset : nat) :
  scan_segments_loop fuel data offset
  = if (offset <? length data)%nat then
      match fuel with
      | O => []
      | S fuel' =>
          match scan_marker data offset with
          | Ok (Skip offset') => scan_segments_loop fuel' data offset'
          | Ok (Segment marker segment_data offset') =>
              (marker, segment_data) :: scan_segments_loop fuel' data offset'
          | _ => []
          end
      end
    else [].
Proof. destruct fuel; reflexivity. Qed.

(** A successful run of the loop is the run of the decoders over the
    segments of the file, in stream order. *)
Lemma parse_loop_decode_all (fuel : nat) (data : list byte) (offset : nat)
    (st st' : parse_state) :
  parse_loop fuel data offset st = Ok st' ->
  decode_all (scan_segments_loop fuel data offset) st = Ok st'.
Proof.
  revert offset st. induction fuel as [| fuel IH]; intros offset st;
    rewrite parse_loop_eq, scan_segments_loop_eq;
    destruct (offset <? length data)%nat; try discriminate; try (intros H; exact H).
  destruct (scan_marker data offset) as [[offset' | | marker segment_data offset'] | e |];
    cbn [result_bind]; try discriminate.
  - apply IH.
  - intros H. exact H.
  - intros H. inv_bind H as (st1 & Hdec & Hrun).
    cbn [decode_all]. rewrite Hdec. cbn [result_bind]. now apply IH.
Qed.

(** What a successful parse returns is the state that the decoders reach
    over the segments of the file. *)
Lemma parse_jpeg_state (data : list byte) (sof : SofData.t)
    (tables : list QuantTable.t) (flags : gmap string bool) :
  parse_jpeg data = Ok (sof, tables, flags) ->
  exists st,
    decode_all (scan_segments data) initial_state = Ok st
    /\ sof_data st = Some sof
    /\ tables = map snd (quant_tables st)
    /\ flags = info_flags st.
Proof.
  unfold parse_jpeg. destruct (_ || _); [discriminate |].
  intros H. inv_bind H as (st & Hloop & H).
  destruct (sof_data st) as [sof' |] eqn:Hsof; [| discriminate].
  injection H as -> <- <-.
  apply parse_loop_decode_all in Hloop. fold (scan_segments data) in Hloop.
  exists st. auto.
Qed.

Lemma is_sof_not_dqt (marker : Z) : is_sof marker = true -> (marker =? 0xFFDB) = false.
Proof.
  unfold is_sof. rewrite !orb_true_iff, !Z.eqb_eq. intros H.
  apply Z.eqb_neq. lia.
Qed.

Lemma decode_segment_sof (marker : Z) (segment_data : list byte) (st st' : parse_state) :
  is_sof marker = true ->
  decode_segment marker segment_data st = Ok st' ->
  exists sof, decode_sof segment_data = Ok sof /\ sof_data st' = Some sof.
Proof.
  intros Hsof. unfold decode_segment. rewrite (is_sof_not_dqt _ Hsof), Hsof.
  intros H. inv_bind H as (sof & Hdec & H).
  injection H as <-. exists sof. split; [exact Hdec | reflexivity].
Qed.

Lemma decode_segment_other (marker : Z) (segment_data : list byte) (st st' : parse_state) :
  is_sof marker = false ->
  decode_segment marker segment_data st = Ok st' ->
  sof_data st' = sof_data st.
Proof.
  intros Hsof. unfold decode_segment. rewrite Hsof.
  destruct (marker =? 0xFFDB).
  - destruct (parse_quant_tables segment_data) as [tables fin].
    intros H. inv_bind H as (u & _ & H).
    injection H as <-. reflexivity.
  - repeat match goal with
           | |- context [if ?c then _ else _] => destruct c
           end; intros H; injection H as <-; reflexivity.
Qed.

(** After the decoders have run over a list of segments, the frame data
    are those of the last SOF segment of the list, if there is one. *)
Lemma decode_all_last_sof (segments : list (Z * list byte)) (st st' : parse_state) :
  decode_all segments st = Ok st' ->
  List.filter (fun s => is_sof (fst s)) segments = [] /\ sof_data st' = sof_data st
  \/ exists earlier marker payload sof,
       List.filter (fun s => is_sof (fst s)) segments = earlier ++ [(marker, payload)]
       /\ decode_sof payload = Ok sof
       /\ sof_data st' = Some sof.
Proof.
  revert st. induction segments as [| [marker payload] segments IH]; intros st Hrun.
  - injection Hrun as <-. left. split; reflexivity.
  - cbn [decode_all] in Hrun.
    inv_bind Hrun as (st1 & Hdec & Hrun).
    cbn [List.filter fst].
    destruct (IH st1 Hrun)
      as [[Hnone Hsame] | (earlier & marker' & payload' & sof & Hlast & Hsof & Hkept)].
    + rewrite Hnone. destruct (is_sof marker) eqn:Hm.
      * destruct (decode_segment_sof _ _ _ _ Hm Hdec) as (sof & Hsof & Hst1).
        right. exists [], marker, payload, sof.
        split; [reflexivity |]. split; [exact Hsof | congruence].
      * left. split; [reflexivity |].
        rewrite Hsame. apply (decode_segment_other _ _ _ _ Hm Hdec).
    + right. rewrite Hlast. destruct (is_sof marker).
      * exists ((marker, payload) :: earlier), marker', payload', sof. auto.
      * exists earlier, marker', payload', sof. auto.
Qed.

(** C3, as stated, fails: of the two frame headers of [two_frames_file]
    the result carries the second. *)
Lemma first_sof_rule_refuted : ~ first_sof_rule two_frames_file.
Proof.
  intros Hrule.
  assert (Hfirst : decode_sof [x08; x00; x64; x00; x64; x03]
                   = Ok (SofData.Build 8 16 32 1)).
  { apply (Hrule (SofData.Build 8 16 32 1) [flat_table 0 16] (info_flags initial_state)
             0xFFC0 [x08; x00; x64; x00; x64; x03]
             [(0xFFC2, [x08; x00; x10; x00; x20; x01])]);
      vm_compute; reflexivity. }
  vm_compute in Hfirst. discriminate.
Qed.

(** C3, amended.  The frame data of the result are decoded from the last
    SOF0-SOF3 segment of the file, each one replacing the frame data read
    before it; every segment of the file, before or after it, goes through
    the decoders, so that the tables and flags of the result are those of
    the whole file. *)
Theorem last_sof_kept (data : list byte) (sof : SofData.t)
    (tables : list QuantTable.t) (flags : gmap string bool) :
  parse_jpeg data = Ok (sof, tables, flags) ->
  (exists earlier marker payload,
      sof_segments data = earlier ++ [(marker, payload)]
      /\ decode_sof payload = Ok sof)
  /\ (exists st,
        decode_all (scan_segments data) initial_state = Ok st
        /\ sof_data st = Some sof
        /\ tables = map snd (quant_tables st)
        /\ flags = info_flags st).
Proof.
  unfold parse_jpeg. destruct (_ || _); [discriminate |].
  intros H. inv_bind H as (st & Hloop & H).
  destruct (sof_data st) as [sof' |] eqn:Hsof; [| discriminate].
  injection H as -> <- <-.
  apply parse_loop_decode_all in Hloop. fold (scan_segments data) in Hloop.
  split.
  - destruct (decode_all_last_sof _ _ _ Hloop)
      as [[_ Hsame] | (earlier & marker & payload & sof' & Hlast & Hdec & Hkept)].
    + rewrite Hsof in Hsame. discriminate.
    + exists earlier, marker, payload. split; [exact Hlast | congruence].
  - exists st. auto.
Qed.

Lemma last_sof_kept_witness :
  sof_segments two_frames_file
  = [(0xFFC0, [x08; x00; x64; x00; x64; x03])] ++ [(0xFFC2, [x08; x00; x10; x00; x20; x01])]
  /\ decode_sof [x08; x00; x10; x00; x20; x01] = Ok (SofData.Build 8 16 32 1)
  /\ exists st,
       decode_all (scan_segments two_frames_file) initial_state = Ok st
       /\ map snd (quant_tables st) = [flat_table 0 16].
Proof.
  destruct (last_sof_kept two_frames_file (SofData.Build 8 16 32 1) [flat_table 0 16]
              (info_flags initial_state))
    as [_ (st & Hrun & _ & Htables & _)].
  - vm_compute. reflexivity.
  - split; [vm_compute; reflexivity |]. split; [vm_compute; reflexivity |].
    exists st. split; [exact Hrun | now symmetry].
Defined.

Example table_after_frames_is_read :
  parse_jpeg two_frames_file
  = Ok (SofData.Build 8 16 32 1, [flat_table 0 16], info_flags initial_state).
Proof. vm_compute. reflexivity. Qed.

(** ** Termination: the fuel is never used up *)

Lemma scan_marker_advances (data : list byte) (offset : nat) :
  match scan_marker data offset with
  | Ok (Skip offset') | Ok (Segment _ _ offset') => (offset < offset')%nat
  | _ => True
  end.
Proof.
  unfold scan_marker, byte_at.
  destruct (data !! offset) as [b |]; cbn [result_bind]; [| exact I].
  destruct (int_of_byte b =? 0xFF); cbn [negb]; [| lia].
  pose proof (skip_fill_ge data offset) as Hge.
  destruct (length data <=? skip_fill data offset)%nat; [exact I |].
  destruct (data !! skip_fill data offset) as [m |]; cbn [result_bind]; [| exact I].
  destruct (Z.lor 0xFF00 (int_of_byte m) =? 0xFFD9); [exact I |].
  destruct (standalone _); [lia |].
  destruct (read_segment_cases data (skip_fill data offset + 1)) as (Hshort & Hsmall & Hok).
  destruct (Nat.lt_ge_cases (length data) (skip_fill data offset + 1 + 2)) as [H | H].
  - rewrite (Hshort H). exact I.
  - destruct (Z.lt_ge_cases (declared_length data (skip_fill data offset + 1)) 2)
      as [Hd | Hd].
    + rewrite (Hsmall H Hd). exact I.
    + rewrite (Hok H Hd). cbn [result_bind]. lia.
Qed.

Lemma decode_sof_total (segment_data : list byte) : decode_sof segment_data <> OutOfFuel.
Proof.
  unfold decode_sof, byte_at, unpack_H.
  destruct (_ <? _)%nat; [discriminate |].
  destruct (segment_data !! 0%nat); cbn [result_bind]; [| discriminate].
  destruct (slice segment_data 1 3) as [| ? [| ? [| ? ?]]]; cbn [result_bind];
    try discriminate.
  destruct (slice segment_data 3 5) as [| ? [| ? [| ? ?]]]; cbn [result_bind];
    try discriminate.
  destruct (segment_data !! 5%nat); cbn [result_bind]; discriminate.
Qed.

Lemma decode_segment_total (marker : Z) (segment_data : list byte) (st : parse_state) :
  decode_segment marker segment_data st <> OutOfFuel.
Proof.
  unfold decode_segment. destruct (marker =? 0xFFDB).
  - pose proof (parse_quant_tables_total segment_data) as Htotal.
    destruct (parse_quant_tables segment_data) as [tables [[] | e |]];
      cbn [result_bind snd] in *; congruence.
  - destruct (is_sof marker).
    + pose proof (decode_sof_total segment_data).
      destruct (decode_sof segment_data); cbn [result_bind]; congruence.
    + repeat match goal with
             | |- context [if ?c then _ else _] => destruct c
             end; discriminate.
Qed.

Lemma parse_loop_enough_fuel (fuel : nat) (data : list byte) (offset : nat)
    (st : parse_state) :
  (length data - offset <= fuel)%nat -> parse_loop fuel data offset st <> OutOfFuel.
Proof.
  revert offset st. induction fuel as [| fuel IH]; intros offset st Hfuel;
    rewrite parse_loop_eq;
    destruct (Nat.ltb_spec offset (length data)); try discriminate; try lia.
  pose proof (scan_marker_advances data offset) as Hadv.
  destruct (scan_marker data offset) as [[offset' | | marker segment_data offset'] | e |]
    eqn:Hscan; cbn [result_bind]; try discriminate.
  - apply IH. lia.
  - pose proof (decode_segment_total marker segment_data st) as Hdec.
    destruct (decode_segment marker segment_data st); cbn [result_bind];
      try congruence.
    apply IH. lia.
  - unfold scan_marker, byte_at, read_segment, read_uint16, unpack_H in Hscan.
    repeat match type of Hscan with
           | context [match ?c with _ => _ end] =>
               destruct c; cbn [result_bind] in Hscan; try discriminate
           end.
Qed.

(** [parse_jpeg] returns or raises on every input. *)
Lemma parse_jpeg_returns (data : list byte) : parse_jpeg data <> OutOfFuel.
Proof.
  unfold parse_jpeg. destruct (_ || _); [discriminate |].
  pose proof (parse_loop_enough_fuel (length data) data 2 initial_state) as Hloop.
  destruct (parse_loop (length data) data 2 initial_state); cbn [result_bind].
  - destruct (sof_data a); discriminate.
  - discriminate.
  - exfalso. apply Hloop; [lia | reflexivity].
Qed.

(** More fuel does not lengthen the list of segments. *)
Lemma scan_segments_fuel (fuel1 fuel2 : nat) (data : list byte) (offset : nat) :
  (length data - offset <= fuel1)%nat ->
  (length data - offset <= fuel2)%nat ->
  scan_segments_loop fuel1 data offset = scan_segments_loop fuel2 data offset.
Proof.
  revert fuel2 offset. induction fuel1 as [| fuel1 IH]; intros fuel2 offset H1 H2;
    rewrite (scan_segments_loop_eq _ data offset);
    rewrite (scan_segments_loop_eq fuel2 data offset);
    destruct (Nat.ltb_spec offset (length data)); try reflexivity; try lia.
  destruct fuel2 as [| fuel2]; [lia |].
  pose proof (scan_marker_advances data offset) as Hadv.
  destruct (scan_marker data offset) as [[offset' | | marker segment_data offset'] | e |];
    try reflexivity.
  - apply IH; lia.
  - f_equal. apply IH; lia.
Qed.

(** ** The tables of a parsed file are decoded tables *)

Lemma big_endian_value (hi lo : byte) :
  Z.lor (Z.shiftl (int_of_byte hi) 8) (int_of_byte lo)
  = 256 * int_of_byte hi + int_of_byte lo.
Proof.
  pose proof (int_of_byte_range hi) as Hhi. pose proof (int_of_byte_range lo) as Hlo.
  assert (Hdisjoint : Z.land (Z.shiftl (int_of_byte hi) 8) (int_of_byte lo) = 0).
  { apply Z.bits_inj'. intros n Hn. rewrite Z.land_spec, Z.bits_0.
    destruct (Z.lt_ge_cases n 8) as [Hlow | Hhigh].
    - rewrite Z.shiftl_spec_low by exact Hlow. reflexivity.
    - rewrite <- (Z.mod_small (int_of_byte lo) (2 ^ 8)) by (change (2 ^ 8) with 256; lia).
      rewrite Z.mod_pow2_bits_high by lia. apply andb_false_r. }
  rewrite <- Z.lxor_lor by exact Hdisjoint.
  rewrite <- Z.add_nocarry_lxor by exact Hdisjoint.
  rewrite Z.shiftl_mul_pow2 by lia. change (2 ^ 8) with 256. lia.
Qed.

Lemma unpack_H_list_range (chunk : list byte) :
  Forall (fun v => 0 <= v < 65536) (unpack_H_list chunk).
Proof.
  assert (H : forall n chunk, (length chunk <= n)%nat ->
                              Forall (fun v => 0 <= v < 65536) (unpack_H_list chunk)).
  { clear chunk. induction n as [| n IH]; intros chunk Hlen.
    - destruct chunk; [constructor | simpl in Hlen; lia].
    - destruct chunk as [| hi [| lo chunk]]; simpl; try constructor.
      + rewrite big_endian_value.
        pose proof (int_of_byte_range hi). pose proof (int_of_byte_range lo). lia.
      + apply IH. simpl in Hlen. lia. }
  apply (H (length chunk)). lia.
Qed.

Lemma decoded_table_intro (table : QuantTable.t) :
  length (QuantTable.values table) = 64%nat ->
  Forall (fun v => 0 <= v < coefficient_bound (QuantTable.precision table))
    (QuantTable.values table) ->
  decoded_table table = true.
Proof.
  intros Hlen Hall. unfold decoded_table.
  rewrite andb_true_iff, Nat.eqb_eq, forallb_forall. split; [exact Hlen |].
  rewrite List.Forall_forall in Hall. intros v Hin. specialize (Hall v Hin). lia.
Qed.

Lemma read_table_decoded (segment : list byte) (offset : nat) (table : QuantTable.t)
    (offset' : nat) :
  read_table segment offset = Ok (table, offset') -> decoded_table table = true.
Proof.
  intros Hr.
  destruct (segment !! offset) as [header |] eqn:Hh.
  - destruct (read_table_cases segment offset header Hh)
      as [[_ Hr'] | [_ (table' & Hr' & H64 & _)]]; rewrite Hr' in Hr; [discriminate |].
    injection Hr as <- _. apply decoded_table_intro; [exact H64 |].
    rewrite (read_table_unfold _ _ _ Hh) in Hr'. cbv zeta in Hr'.
    destruct (negb _); [discriminate |]. injection Hr' as <-.
    cbn [QuantTable.values QuantTable.precision]. unfold coefficient_bound.
    destruct (Z.shiftr (int_of_byte header) 4 =? 0).
    + apply List.Forall_forall. intros v Hv. apply in_map_iff in Hv.
      destruct Hv as (b & <- & _). apply int_of_byte_range.
    + apply unpack_H_list_range.
  - unfold read_table, byte_at in Hr. rewrite Hh in Hr. discriminate.
Qed.

Lemma parse_quant_tables_decoded (segment : list byte) :
  Forall (fun table => decoded_table table = true) (fst (parse_quant_tables segment)).
Proof.
  unfold parse_quant_tables. generalize (length segment) at 1 as fuel.
  generalize 0%nat as offset. intros offset fuel. revert offset.
  induction fuel as [| fuel IH]; intros offset;
    rewrite parse_quant_tables_loop_eq;
    destruct (offset <? length segment)%nat; try constructor.
  destruct (read_table segment offset) as [[table offset'] | e |] eqn:Hr;
    try constructor.
  specialize (IH offset').
  destruct (parse_quant_tables_loop fuel segment offset'). cbn [fst] in *.
  constructor; [apply (read_table_decoded _ _ _ _ Hr) | exact IH].
Qed.

Lemma dict_set_decoded (d : list (Z * QuantTable.t)) (k : Z) (v : QuantTable.t) :
  Forall (fun table => decoded_table table = true) (map snd d) ->
  decoded_table v = true ->
  Forall (fun table => decoded_table table = true) (map snd (dict_set d k v)).
Proof.
  intros Hd Hv. induction d as [| [k' v'] d IH]; simpl in *.
  - constructor; [exact Hv | constructor].
  - apply Forall_cons_1 in Hd. destruct Hd as [Hv' Hd].
    destruct (k' =? k); simpl; constructor; auto.
Qed.

Lemma decode_segment_decoded (marker : Z) (segment_data : list byte)
    (st st' : parse_state) :
  Forall (fun table => decoded_table table = true) (map snd (quant_tables st)) ->
  decode_segment marker segment_data st = Ok st' ->
  Forall (fun table => decoded_table table = true) (map snd (quant_tables st')).
Proof.
  intros Hst. unfold decode_segment. destruct (marker =? 0xFFDB).
  - pose proof (parse_quant_tables_decoded segment_data) as Htables.
    destruct (parse_quant_tables segment_data) as [tables fin]. cbn [fst] in Htables.
    intros H. inv_bind H as (u & _ & H). injection H as <-.
    cbn [quant_tables]. revert Hst. generalize (quant_tables st) as d.
    induction Htables as [| table tables Htable _ IH]; intros d Hd; simpl.
    + exact Hd.
    + apply IH. now apply dict_set_decoded.
  - destruct (is_sof marker).
    + intros H. inv_bind H as (sof & _ & H).
      injection H as <-. exact Hst.
    + repeat match goal with
             | |- context [if ?c then _ else _] => destruct c
             end; intros H; injection H as <-; exact Hst.
Qed.

Lemma decode_all_decoded (segments : list (Z * list byte)) (st st' : parse_state) :
  Forall (fun table => decoded_table table = true) (map snd (quant_tables st)) ->
  decode_all segments st = Ok st' ->
  Forall (fun table => decoded_table table = true) (map snd (quant_tables st')).
Proof.
  revert st. induction segments as [| [marker payload] segments IH]; intros st Hst Hrun.
  - injection Hrun as <-. exact Hst.
  - cbn [decode_all] in Hrun.
    inv_bind Hrun as (st1 & Hdec & Hrun).
    apply (IH st1); [| exact Hrun]. apply (decode_segment_decoded _ _ _ _ Hst Hdec).
Qed.

(** Every table that [parse_jpeg] returns has 64 coefficients in the range
    of its precision. *)
Theorem parse_jpeg_tables_decoded (data : list byte) (sof : SofData.t)
    (tables : list QuantTable.t) (flags : gmap string bool) :
  parse_jpeg data = Ok (sof, tables, flags) ->
  Forall (fun table => decoded_table table = true) tables.
Proof.
  intros Hparse.
  destruct (parse_jpeg_state _ _ _ _ Hparse) as (st & Hrun & _ & -> & _).
  eapply decode_all_decoded; [| exact Hrun]. constructor.
Qed.

Lemma parse_jpeg_tables_decoded_witness :
  Forall (fun table => decoded_table table = true) [flat_table 0 16].
Proof.
  apply (parse_jpeg_tables_decoded two_frames_file (SofData.Build 8 16 32 1) _
           (info_flags initial_state)).
  vm_compute. reflexivity.
Defined.

(** ** [summarize] *)

(** Once the file is parsed, the digests are defined and [summarize]
    returns; its match list is the lookup over the digest pairs of the
    tables in ascending order of identifier, and its verdict is the one of
    the tamper heuristic for the flags and that match list. *)
Theorem summarize_defined (path : string) (data : list byte)
    (signatures : list Signature.t) (sof : SofData.t) (tables : list QuantTable.t)
    (flags : gmap string bool) :
  parse_jpeg data = Ok (sof, tables, flags) ->
  exists result digests,
    summarize path data signatures = Ok result
    /\ result_map QuantTable.md5 (sorted_by_id tables) = Ok digests
    /\ signatureMatches result
       = find_signature_matches signatures (pairs_of_digests digests)
    /\ tamperingAssessment result = assess_tampering flags (signatureMatches result).
Proof.
  intros Hparse.
  assert (Hdec : Forall (fun table => decoded_table table = true) tables).
  { destruct (parse_jpeg_state _ _ _ _ Hparse) as (st & Hrun & _ & -> & _).
    eapply decode_all_decoded; [| exact Hrun]. constructor. }
  destruct (digest_pairs_loop_defined tables Hdec) as (digests & Hmap & Hpairs).
  unfold summarize. rewrite Hparse. cbn [result_bind]. rewrite Hpairs. cbn [result_bind].
  assert (Hrows : exists rows,
             result_map
               (fun table =>
                  let* digest := QuantTable.md5 table in
                  Ok {| ts_id := QuantTable.table_id table;
                        ts_precision := QuantTable.precision table;
                        ts_values := QuantTable.values table;
                        ts_md5 := digest |})
               (sorted_by_id tables) = Ok rows).
  { clear Hpairs. revert digests Hmap.
    induction (sorted_by_id tables) as [| table ordered IH]; intros digests Hmap.
    - exists []. reflexivity.
    - simpl in Hmap.
      inv_bind Hmap as (d & Hd & Hmap).
      inv_bind Hmap as (ds & Hds & _).
      destruct (IH ds Hds) as (rows & Hrows).
      simpl. rewrite Hd. cbn [result_bind]. rewrite Hrows. cbn [result_bind].
      eexists. reflexivity. }
  destruct Hrows as (rows & Hrows). rewrite Hrows. cbn [result_bind].
  eexists. exists digests. split; [reflexivity |]. cbn.
  split; [exact Hmap |]. split; reflexivity.
Qed.

(** ** The errors of [parse_jpeg] *)

Lemma scan_marker_raises (data : list byte) (offset : nat) (e : exn) :
  (offset < length data)%nat ->
  scan_marker data offset = Raise e ->
  e = JpegParseError "Unexpected end of data while reading uint16"
  \/ e = JpegParseError "Invalid segment length".
Proof.
  intros Hlt. unfold scan_marker, byte_at.
  destruct (lookup_lt_is_Some_2 data offset Hlt) as [b Hb]. rewrite Hb.
  cbn [result_bind].
  destruct (int_of_byte b =? 0xFF); cbn [negb]; [| discriminate].
  destruct (Nat.leb_spec (length data) (skip_fill data offset)) as [Hend | Hin];
    [discriminate |].
  destruct (lookup_lt_is_Some_2 data _ Hin) as [m Hm]. rewrite Hm. cbn [result_bind].
  destruct (Z.lor 0xFF00 (int_of_byte m) =? 0xFFD9); [discriminate |].
  destruct (standalone _); [discriminate |].
  destruct (read_segment_cases data (skip_fill data offset + 1)) as (Hshort & Hsmall & Hok).
  destruct (Nat.lt_ge_cases (length data) (skip_fill data offset + 1 + 2)) as [H | H].
  - rewrite (Hshort H). cbn [result_bind]. intros [= <-]. now left.
  - destruct (Z.lt_ge_cases (declared_length data (skip_fill data offset + 1)) 2)
      as [Hd | Hd].
    + rewrite (Hsmall H Hd). cbn [result_bind]. intros [= <-]. now right.
    + rewrite (Hok H Hd). discriminate.
Qed.

Lemma parse_quant_tables_raises (fuel : nat) (segment : list byte) (offset : nat)
    (e : exn) :
  snd (parse_quant_tables_loop fuel segment offset) = Raise e ->
  e = JpegParseError "Incomplete DQT segment".
Proof.
  revert offset. induction fuel as [| fuel IH]; intros offset;
    rewrite parse_quant_tables_loop_eq;
    destruct (Nat.ltb_spec offset (length segment)) as [Hlt | Hge];
    try discriminate.
  destruct (lookup_lt_is_Some_2 segment offset Hlt) as [header Hh].
  destruct (read_table_cases segment offset header Hh)
    as [[_ Hr] | [_ (table & Hr & _)]]; rewrite Hr.
  - intros [= <-]. reflexivity.
  - specialize (IH (offset + 1 + table_bytes header)%nat).
    destruct (parse_quant_tables_loop fuel segment (offset + 1 + table_bytes header)).
    exact IH.
Qed.

(** With six bytes or more, the SOF decoder returns the four fields. *)
Lemma decode_sof_six (b0 b1 b2 b3 b4 b5 : byte) (rest : list byte) :
  decode_sof (b0 :: b1 :: b2 :: b3 :: b4 :: b5 :: rest)
  = Ok (SofData.Build (int_of_byte b0)
          (Z.lor (Z.shiftl (int_of_byte b1) 8) (int_of_byte b2))
          (Z.lor (Z.shiftl (int_of_byte b3) 8) (int_of_byte b4))
          (int_of_byte b5)).
Proof. reflexivity. Qed.

Lemma decode_sof_raises (segment_data : list byte) (e : exn) :
  decode_sof segment_data = Raise e -> e = JpegParseError "Invalid SOF segment".
Proof.
  destruct segment_data as [| b0 [| b1 [| b2 [| b3 [| b4 [| b5 rest]]]]]];
    intros [= <-]; reflexivity.
Qed.

Lemma decode_segment_raises (marker : Z) (segment_data : list byte) (st : parse_state)
    (e : exn) :
  decode_segment marker segment_data st = Raise e ->
  e = JpegParseError "Incomplete DQT segment" \/ e = JpegParseError "Invalid SOF segment".
Proof.
  unfold decode_segment. destruct (marker =? 0xFFDB).
  - pose proof (parse_quant_tables_raises (length segment_data) segment_data 0 e) as Hdqt.
    fold (parse_quant_tables segment_data) in Hdqt.
    destruct (parse_quant_tables segment_data) as [tables [[] | e' |]];
      cbn [result_bind snd] in *; try discriminate.
    intros [= ->]. left. now apply Hdqt.
  - destruct (is_sof marker).
    + pose proof (decode_sof_raises segment_data e) as Hsof.
      destruct (decode_sof segment_data); cbn [result_bind]; try discriminate.
      intros [= ->]. right. now apply Hsof.
    + repeat match goal with
             | |- context [if ?c then _ else _] => destruct c
             end; discriminate.
Qed.

Lemma parse_loop_raises (fuel : nat) (data : list byte) (offset : nat) (st : parse_state)
    (e : exn) :
  parse_loop fuel data offset st = Raise e ->
  exists msg, e = JpegParseError msg /\ In msg parse_jpeg_messages.
Proof.
  revert offset st. induction fuel as [| fuel IH]; intros offset st;
    rewrite parse_loop_eq;
    destruct (Nat.ltb_spec offset (length data)) as [Hlt | Hge]; try discriminate.
  destruct (scan_marker data offset) as [[offset' | | marker segment_data offset'] | e' |]
    eqn:Hscan; cbn [result_bind]; try discriminate.
  - apply IH.
  - destruct (decode_segment marker segment_data st) as [st' | e' |] eqn:Hdec;
      cbn [result_bind]; try discriminate.
    + apply IH.
    + intros [= ->].
      destruct (decode_segment_raises _ _ _ _ Hdec) as [-> | ->];
        eexists; (split; [reflexivity |]); simpl; auto 10.
  - intros [= ->].
    destruct (scan_marker_raises _ _ _ Hlt Hscan) as [-> | ->];
      eexists; (split; [reflexivity |]); simpl; auto 10.
Qed.

(** [parse_jpeg] raises nothing but [JpegParseError], with one of its
    six messages: every index and every [struct.unpack] of the parser is
    guarded, so that no [IndexError] or [struct.error] escapes. *)
Theorem parse_jpeg_raises_only_parse_errors (data : list byte) (e : exn) :
  parse_jpeg data = Raise e ->
  exists msg, e = JpegParseError msg /\ In msg parse_jpeg_messages.
Proof.
  unfold parse_jpeg. destruct (_ || _).
  - intros [= <-]. eexists. split; [reflexivity |]. simpl. auto.
  - destruct (parse_loop (length data) data 2 initial_state) as [st | e' |] eqn:Hloop;
      cbn [result_bind]; try discriminate.
    + destruct (sof_data st); [discriminate |].
      intros [= <-]. eexists. split; [reflexivity |]. simpl. auto 10.
    + intros [= ->]. apply (parse_loop_raises _ _ _ _ _ Hloop).
Qed.

Lemma parse_jpeg_raises_only_parse_errors_witness :
  exists msg,
    JpegParseError "Invalid SOF segment" = JpegParseError msg
    /\ In msg parse_jpeg_messages.
Proof.
  apply (parse_jpeg_raises_only_parse_errors
           (soi ++ [xff; xc0; x00; x04; x08; x00])).
  vm_compute. reflexivity.
Defined.

(** ** The parser as scanner followed by decoders *)

Lemma scan_end_loop_eq (fuel : nat) (data : list byte) (offset : nat) :
  scan_end_loop fuel data offset
  = if (offset <? length data)%nat then
      match fuel with
      | O => OutOfFuel
      | S fuel' =>
          match scan_marker data offset with
          | Ok (Skip offset') | Ok (Segment _ _ offset') =>
              scan_end_loop fuel' data offset'
          | Ok Stop => Ok tt
          | Raise e => Raise e
          | OutOfFuel => OutOfFuel
          end
      end
    else Ok tt.
Proof. destruct fuel; reflexivity. Qed.

Lemma parse_loop_factors (fuel : nat) (data : list byte) (offset : nat)
    (st : parse_state) :
  parse_loop fuel data offset st
  = let* st' := decode_all (scan_segments_loop fuel data offset) st in
    let* _ := scan_end_loop fuel data offset in
    Ok st'.
Proof.
  revert offset st. induction fuel as [| fuel IH]; intros offset st;
    rewrite parse_loop_eq, scan_segments_loop_eq, scan_end_loop_eq;
    destruct (offset <? length data)%nat; try reflexivity.
  destruct (scan_marker data offset) as [[offset' | | marker segment_data offset'] | e |];
    cbn [result_bind decode_all]; try reflexivity.
  - apply IH.
  - destruct (decode_segment marker segment_data st); cbn [result_bind];
      try reflexivity.
    apply IH.
Qed.

(** [parse_jpeg] is the scanner followed by the decoders: past the SOI
    test, its outcome is that of the decoders run over the segments of the
    file in stream order; if none of them raises, the error of the scanner,
    if it met one; and otherwise the state reached, which must hold frame
    data.  An error of a decoder comes before an error that the scanner
    meets further on. *)
Theorem parse_jpeg_factors (data : list byte) :
  parse_jpeg data
  = if (length data <? 4)%nat || negb (bytes_eqb (slice data 0 2) soi) then
      Raise (JpegParseError "Not a valid JPEG (missing SOI marker)")
    else
      let* st := decode_all (scan_segments data) initial_state in
      let* _ := scan_end data in
      match sof_data st with
      | None => Raise (JpegParseError "Missing SOF0 marker; cannot read image dimensions")
      | Some sof => Ok (sof, map snd (quant_tables st), info_flags st)
      end.
Proof.
  unfold parse_jpeg, scan_segments, scan_end. destruct (_ || _); [reflexivity |].
  rewrite parse_loop_factors.
  destruct (decode_all _ _); cbn [result_bind]; try reflexivity.
  destruct (scan_end_loop _ _ _); reflexivity.
Qed.

(** ** The tables of the result: one per identifier, the last one defined *)

Lemma dict_set_keys (d : list (Z * QuantTable.t)) (k : Z) (v : QuantTable.t) (k' : Z) :
  In k' (map fst (dict_set d k v)) <-> k' = k \/ In k' (map fst d).
Proof.
  induction d as [| [k0 v0] d IH]; simpl.
  - intuition.
  - destruct (Z.eqb_spec k0 k) as [-> | Hne]; simpl.
    + intuition.
    + rewrite IH. intuition.
Qed.

Lemma dict_set_table_dict (d : list (Z * QuantTable.t)) (table : QuantTable.t) :
  table_dict d -> table_dict (store_table d table).
Proof.
  unfold table_dict, store_table. intros [Hkeys Hnodup]. split.
  - induction d as [| [k0 v0] d IH]; simpl.
    + constructor; [reflexivity | constructor].
    + apply Forall_cons_1 in Hkeys. destruct Hkeys as [Hk0 Hkeys].
      apply NoDup_cons in Hnodup. destruct Hnodup as [_ Hnodup].
      destruct (k0 =? QuantTable.table_id table); constructor; auto.
  - induction d as [| [k0 v0] d IH]; simpl.
    + constructor; [intros H; inversion H | constructor].
    + simpl in Hnodup. apply NoDup_cons in Hnodup. destruct Hnodup as [Hfresh Hnodup].
      apply Forall_cons_1 in Hkeys. destruct Hkeys as [_ Hkeys].
      destruct (Z.eqb_spec k0 (QuantTable.table_id table)) as [<- | Hne]; simpl.
      * constructor; assumption.
      * constructor; [| now apply IH].
        rewrite list_elem_of_In, dict_set_keys. rewrite list_elem_of_In in Hfresh.
        intros [Heq | Hin]; [congruence | contradiction].
Qed.

Lemma dict_set_entries (d : list (Z * QuantTable.t)) (k : Z) (v : QuantTable.t)
    (k' : Z) (v' : QuantTable.t) :
  NoDup (map fst d) ->
  In (k', v') (dict_set d k v) <-> (k' = k /\ v' = v) \/ (k' <> k /\ In (k', v') d).
Proof.
  induction d as [| [k0 v0] d IH]; simpl; intros Hnodup.
  - split.
    + intros [[= <- <-] | []]. now left.
    + intros [[-> ->] | [_ []]]. now left.
  - apply NoDup_cons in Hnodup. destruct Hnodup as [Hfresh Hnodup].
    rewrite list_elem_of_In in Hfresh.
    destruct (Z.eqb_spec k0 k) as [-> | Hne]; simpl.
    + split.
      * intros [[= <- <-] | Hin]; [now left |].
        right. split; [| now right].
        intros ->. apply Hfresh. apply in_map_iff. now exists (k, v').
      * intros [[-> ->] | [Hk [[= -> ->] | Hin]]]; [now left | contradiction | now right].
    + rewrite (IH Hnodup). split.
      * intros [[= <- <-] | [[-> ->] | [Hk Hin]]].
        -- right. split; [congruence | now left].
        -- now left.
        -- right. split; [exact Hk | now right].
      * intros [[-> ->] | [Hk [[= -> ->] | Hin]]].
        -- right. now left.
        -- now left.
        -- right. right. now split.
Qed.

(** Storing a list of tables one after the other: an identifier ends up
    with the last table that defines it, or keeps the table it had if none
    does. *)
Lemma stored_tables (tables : list QuantTable.t) (d : list (Z * QuantTable.t))
    (k : Z) (v : QuantTable.t) :
  table_dict d ->
  In (k, v) (fold_left store_table tables d)
  <-> (k = QuantTable.table_id v /\ last_defined v tables)
      \/ (In (k, v) d /\ Forall (fun other => QuantTable.table_id other <> k) tables).
Proof.
  revert d. induction tables as [| u tables IH]; intros d Hd; cbn [fold_left].
  - split.
    + intros Hin. right. split; [exact Hin | constructor].
    + intros [[_ (before & after & Heq & _)] | [Hin _]]; [| exact Hin].
      now destruct before.
  - rewrite (IH _ (dict_set_table_dict d u Hd)). unfold store_table at 1.
    rewrite (dict_set_entries d _ u k v (proj2 Hd)). split.
    + intros [[Hk (before & after & -> & Hafter)]
             | [[[-> ->] | [Hk Hin]] Hnone]].
      * left. split; [exact Hk |]. exists (u :: before), after. now split.
      * left. split; [reflexivity |]. exists [], tables. now split.
      * right. split; [exact Hin |]. constructor; [congruence | exact Hnone].
    + intros [[Hk (before & after & Heq & Hafter)] | [Hin Hnone]].
      * destruct before as [| u' before]; cbn [app] in Heq.
        -- injection Heq as -> ->. right. split; [| now rewrite Hk].
           left. now split.
        -- injection Heq as -> ->. left. split; [exact Hk |].
           exists before, after. now split.
      * apply Forall_cons_1 in Hnone. destruct Hnone as [Hu Hnone].
        right. split; [| exact Hnone]. right. split; [congruence | exact Hin].
Qed.

Lemma fold_store_table_dict (tables : list QuantTable.t) (d : list (Z * QuantTable.t)) :
  table_dict d -> table_dict (fold_left store_table tables d).
Proof.
  revert d. induction tables as [| u tables IH]; intros d Hd; cbn [fold_left].
  - exact Hd.
  - apply IH. now apply dict_set_table_dict.
Qed.

Lemma decode_segment_tables (marker : Z) (segment_data : list byte)
    (st st' : parse_state) :
  decode_segment marker segment_data st = Ok st' ->
  quant_tables st'
  = fold_left store_table (all_tables [(marker, segment_data)]) (quant_tables st).
Proof.
  unfold decode_segment, all_tables. cbn [flat_map fst snd]. rewrite app_nil_r.
  destruct (marker =? 0xFFDB).
  - destruct (parse_quant_tables segment_data) as [tables fin]. cbn [fst].
    intros H. inv_bind H as (u & _ & H). injection H as <-. reflexivity.
  - destruct (is_sof marker).
    + intros H. inv_bind H as (sof & _ & H). injection H as <-. reflexivity.
    + repeat match goal with
             | |- context [if ?c then _ else _] => destruct c
             end; intros H; injection H as <-; reflexivity.
Qed.

Lemma decode_all_tables (segments : list (Z * list byte)) (st st' : parse_state) :
  decode_all segments st = Ok st' ->
  quant_tables st' = fold_left store_table (all_tables segments) (quant_tables st).
Proof.
  revert st. induction segments as [| [marker payload] segments IH]; intros st Hrun.
  - injection Hrun as <-. reflexivity.
  - cbn [decode_all] in Hrun. inv_bind Hrun as (st1 & Hdec & Hrun).
    rewrite (IH st1 Hrun), (decode_segment_tables _ _ _ _ Hdec).
    unfold all_tables. cbn [flat_map]. rewrite app_nil_r, fold_left_app. reflexivity.
Qed.

Lemma parse_jpeg_quant_tables (data : list byte) (sof : SofData.t)
    (tables : list QuantTable.t) (flags : gmap string bool) :
  parse_jpeg data = Ok (sof, tables, flags) ->
  tables = map snd (fold_left store_table (all_tables (scan_segments data)) []).
Proof.
  unfold parse_jpeg. destruct (_ || _); [discriminate |].
  intros H. inv_bind H as (st & Hloop & H).
  destruct (sof_data st); [| discriminate]. injection H as _ <- _.
  apply parse_loop_decode_all in Hloop. fold (scan_segments data) in Hloop.
  now rewrite (decode_all_tables _ _ _ Hloop).
Qed.

Lemma table_dict_ids (d : list (Z * QuantTable.t)) :
  Forall (fun entry => fst entry = QuantTable.table_id (snd entry)) d ->
  map QuantTable.table_id (map snd d) = map fst d.
Proof.
  induction 1 as [| [k v] d Hk _ IH]; simpl; [reflexivity |].
  simpl in Hk. now rewrite IH, Hk.
Qed.

Lemma table_dict_nil : table_dict [].
Proof. split; constructor. Qed.

Lemma parse_jpeg_tables_nodup (data : list byte) (sof : SofData.t)
    (tables : list QuantTable.t) (flags : gmap string bool) :
  parse_jpeg data = Ok (sof, tables, flags) ->
  NoDup (map QuantTable.table_id tables).
Proof.
  intros Hparse. rewrite (parse_jpeg_quant_tables _ _ _ _ Hparse).
  pose proof (fold_store_table_dict (all_tables (scan_segments data)) [] table_dict_nil)
    as [Hkeys Hnodup].
  rewrite (table_dict_ids _ Hkeys). exact Hnodup.
Qed.

Lemma parse_jpeg_tables_from_dqt (data : list byte) (sof : SofData.t)
    (tables : list QuantTable.t) (flags : gmap string bool) (table : QuantTable.t) :
  parse_jpeg data = Ok (sof, tables, flags) ->
  In table tables -> In table (all_tables (scan_segments data)).
Proof.
  intros Hparse Hin. rewrite (parse_jpeg_quant_tables _ _ _ _ Hparse) in Hin.
  apply in_map_iff in Hin. destruct Hin as ([k v] & <- & Hin).
  apply (stored_tables _ [] k v table_dict_nil) in Hin.
  destruct Hin as [[_ (before & after & -> & _)] | [[] _]].
  apply in_or_app. right. now left.
Qed.

(** Last write wins: the tables that [parse_jpeg] returns are, among the
    tables that the DQT segments of the file define, those that are the
    last of their identifier; and no two of them share an identifier. *)
Theorem parse_jpeg_last_table_wins (data : list byte) (sof : SofData.t)
    (tables : list QuantTable.t) (flags : gmap string bool) :
  parse_jpeg data = Ok (sof, tables, flags) ->
  NoDup (map QuantTable.table_id tables)
  /\ forall table,
       In table tables <-> last_defined table (all_tables (scan_segments data)).
Proof.
  intros Hparse. rewrite (parse_jpeg_quant_tables _ _ _ _ Hparse).
  set (all := all_tables (scan_segments data)).
  pose proof (fold_store_table_dict all [] table_dict_nil) as [Hkeys Hnodup].
  split.
  - rewrite (table_dict_ids _ Hkeys). exact Hnodup.
  - intros table. split.
    + intros Hin. apply in_map_iff in Hin. destruct Hin as ([k v] & <- & Hin).
      apply (stored_tables all [] k v table_dict_nil) in Hin.
      destruct Hin as [[_ Hlast] | [[] _]]. exact Hlast.
    + intros Hlast. apply in_map_iff. exists (QuantTable.table_id table, table).
      split; [reflexivity |].
      apply (stored_tables all [] _ table table_dict_nil). left. now split.
Qed.

Lemma parse_jpeg_last_table_wins_witness :
  ~ In (flat_table 0 16) [flat_table 0 17]
  /\ last_defined (flat_table 0 17)
       (all_tables
          (scan_segments
             (soi ++ sof_100x100 ++ dqt_flat
              ++ [xff; xdb; x00; x43; x00] ++ repeat x11 64 ++ eoi))).
Proof.
  destruct (parse_jpeg_last_table_wins
              (soi ++ sof_100x100 ++ dqt_flat
               ++ [xff; xdb; x00; x43; x00] ++ repeat x11 64 ++ eoi)
              (SofData.Build 8 100 100 3) [flat_table 0 17] (info_flags initial_state))
    as [_ Hiff].
  - vm_compute. reflexivity.
  - split.
    + intros [H | []]. discriminate.
    + apply Hiff. left. reflexivity.
Defined.

(** ** The fields of the tables *)

Lemma all_tables_fields (segments : list (Z * list byte)) :
  Forall (fun table => 0 <= QuantTable.table_id table < 16
                       /\ 0 <= QuantTable.precision table < 16)
    (all_tables segments).
Proof.
  assert (Hloop : forall fuel segment offset,
             Forall (fun table => 0 <= QuantTable.table_id table < 16
                                  /\ 0 <= QuantTable.precision table < 16)
               (fst (parse_quant_tables_loop fuel segment offset))).
  { induction fuel as [| fuel IH]; intros segment offset;
      rewrite parse_quant_tables_loop_eq;
      destruct (Nat.ltb_spec offset (length segment)) as [Hlt | Hge];
      try constructor.
    destruct (lookup_lt_is_Some_2 segment offset Hlt) as [header Hh].
    destruct (read_table_cases segment offset header Hh)
      as [[_ Hr] | [_ (table & Hr & _ & Hp & Hid)]]; rewrite Hr; [constructor |].
    specialize (IH segment (offset + 1 + table_bytes header)%nat).
    destruct (parse_quant_tables_loop fuel segment (offset + 1 + table_bytes header)).
    cbn [fst] in *. constructor; [| exact IH].
    pose proof (int_of_byte_range header) as Hrange.
    rewrite Hp, Hid. change 15 with (Z.ones 4).
    rewrite Z.land_ones, Z.shiftr_div_pow2 by lia. change (2 ^ 4) with 16.
    split; [apply Z.mod_pos_bound; lia |].
    split; [apply Z.div_pos; lia | apply Z.div_lt_upper_bound; lia]. }
  unfold all_tables. induction segments as [| [marker payload] segments IH];
    cbn [flat_map fst snd]; [constructor |].
  apply Forall_app_2; [| exact IH].
  destruct (marker =? 0xFFDB); [apply Hloop | constructor].
Qed.

(** The identifier and the precision flag of every table that [parse_jpeg]
    returns are nibbles of a header byte, hence between 0 and 15 (not only
    0-3 and 0-1), and at most 16 tables are returned. *)
Theorem parse_jpeg_table_fields (data : list byte) (sof : SofData.t)
    (tables : list QuantTable.t) (flags : gmap string bool) :
  parse_jpeg data = Ok (sof, tables, flags) ->
  Forall (fun table => 0 <= QuantTable.table_id table < 16
                       /\ 0 <= QuantTable.precision table < 16) tables
  /\ (length tables <= 16)%nat.
Proof.
  intros Hparse.
  pose proof (parse_jpeg_tables_nodup _ _ _ _ Hparse) as Hnodup.
  assert (Hfields : Forall (fun table => 0 <= QuantTable.table_id table < 16
                               /\ 0 <= QuantTable.precision table < 16) tables).
  { apply List.Forall_forall. intros table Hin.
    pose proof (all_tables_fields (scan_segments data)) as Hall.
    rewrite List.Forall_forall in Hall. apply Hall.
    apply (parse_jpeg_tables_from_dqt _ _ _ _ _ Hparse Hin). }
  split; [exact Hfields |].
  assert (Hsub : map QuantTable.table_id tables ⊆+ seqZ 0 16).
  { apply NoDup_submseteq; [exact Hnodup |].
    intros k Hk. apply list_elem_of_In, in_map_iff in Hk.
    destruct Hk as (table & <- & Hin).
    rewrite List.Forall_forall in Hfields. specialize (Hfields table Hin).
    apply elem_of_seqZ. lia. }
  apply submseteq_length in Hsub. rewrite length_map, length_seqZ in Hsub. lia.
Qed.

Lemma parse_jpeg_table_fields_witness :
  Forall (fun table => 0 <= QuantTable.table_id table < 16
                       /\ 0 <= QuantTable.precision table < 16)
    [QuantTable.Build 15 1 (repeat 257 64)]
  /\ (length [QuantTable.Build 15%Z 1%Z (repeat 257%Z 64)] <= 16)%nat.
Proof.
  apply (parse_jpeg_table_fields
           (soi ++ sof_100x100 ++ [xff; xdb; x00; x83; x1f] ++ repeat x01 128 ++ eoi)
           (SofData.Build 8 100 100 3) _ (info_flags initial_state)).
  vm_compute. reflexivity.
Defined.

(** ** The presence flags *)

Lemma flags_of_exif (exif jfif adobe : bool) :
  <["hasExif" := true]> (flags_of exif jfif adobe) = flags_of true jfif adobe.
Proof. unfold flags_of. now rewrite insert_insert_eq. Qed.

Lemma flags_of_jfif (exif jfif adobe : bool) :
  <["hasJFIF" := true]> (flags_of exif jfif adobe) = flags_of exif true adobe.
Proof.
  unfold flags_of. rewrite (insert_insert_ne _ "hasJFIF" "hasExif") by discriminate.
  now rewrite insert_insert_eq.
Qed.

Lemma flags_of_adobe (exif jfif adobe : bool) :
  <["hasAdobe" := true]> (flags_of exif jfif adobe) = flags_of exif jfif true.
Proof.
  unfold flags_of. rewrite (insert_insert_ne _ "hasAdobe" "hasExif") by discriminate.
  rewrite (insert_insert_ne _ "hasAdobe" "hasJFIF") by discriminate.
  now rewrite insert_insert_eq.
Qed.

Lemma decode_segment_flags (marker : Z) (segment_data : list byte)
    (st st' : parse_state) (exif jfif adobe : bool) :
  info_flags st = flags_of exif jfif adobe ->
  decode_segment marker segment_data st = Ok st' ->
  info_flags st'
  = flags_of (exif || flagged 0xFFE1 exif_tag [(marker, segment_data)])
      (jfif || flagged 0xFFE0 jfif_tag [(marker, segment_data)])
      (adobe || flagged 0xFFEE adobe_tag [(marker, segment_data)]).
Proof.
  intros Hst. unfold decode_segment, flagged, is_sof. cbn [existsb fst snd].
  rewrite !orb_false_r.
  destruct (Z.eqb_spec marker 0xFFDB) as [-> | Hdqt].
  - destruct (parse_quant_tables segment_data) as [tables fin].
    intros H. inv_bind H as (u & _ & H). injection H as <-. cbn [info_flags andb].
    now rewrite !orb_false_r.
  - destruct (Z.eqb_spec marker 0xFFC0) as [-> | H0];
      [| destruct (Z.eqb_spec marker 0xFFC1) as [-> | H1];
         [| destruct (Z.eqb_spec marker 0xFFC2) as [-> | H2];
            [| destruct (Z.eqb_spec marker 0xFFC3) as [-> | H3]]]];
      cbn [orb andb];
      try (intros H; inv_bind H as (sof & _ & H); injection H as <-;
           cbn [info_flags]; now rewrite !orb_false_r).
    destruct (Z.eqb_spec marker 0xFFE1) as [-> | He1]; cbn [andb].
    + destruct (startswith segment_data exif_tag).
      * intros [= <-]. cbn [set_flag info_flags]. rewrite Hst, flags_of_exif.
        now rewrite orb_true_r, !orb_false_r.
      * cbn [andb]. intros [= <-]. now rewrite !orb_false_r.
    + destruct (Z.eqb_spec marker 0xFFE0) as [-> | He0]; cbn [andb].
      * destruct (startswith segment_data jfif_tag).
        -- intros [= <-]. cbn [set_flag info_flags]. rewrite Hst, flags_of_jfif.
           now rewrite orb_true_r, !orb_false_r.
        -- cbn [andb]. intros [= <-]. now rewrite !orb_false_r.
      * destruct (Z.eqb_spec marker 0xFFEE) as [-> | Hee]; cbn [andb].
        -- destruct (startswith segment_data adobe_tag).
           ++ intros [= <-]. cbn [set_flag info_flags]. rewrite Hst, flags_of_adobe.
              now rewrite orb_true_r, !orb_false_r.
           ++ intros [= <-]. now rewrite !orb_false_r.
        -- intros [= <-]. now rewrite !orb_false_r.
Qed.

Lemma decode_all_flags (segments : list (Z * list byte)) (st st' : parse_state)
    (exif jfif adobe : bool) :
  info_flags st = flags_of exif jfif adobe ->
  decode_all segments st = Ok st' ->
  info_flags st'
  = flags_of (exif || flagged 0xFFE1 exif_tag segments)
      (jfif || flagged 0xFFE0 jfif_tag segments)
      (adobe || flagged 0xFFEE adobe_tag segments).
Proof.
  revert st exif jfif adobe.
  induction segments as [| [marker payload] segments IH];
    intros st exif jfif adobe Hst Hrun.
  - injection Hrun as <-. cbn [flagged existsb]. now rewrite !orb_false_r.
  - cbn [decode_all] in Hrun. inv_bind Hrun as (st1 & Hdec & Hrun).
    rewrite (IH st1 _ _ _ (decode_segment_flags _ _ _ _ _ _ _ Hst Hdec) Hrun).
    unfold flagged. cbn [existsb]. now rewrite !orb_false_r, !orb_assoc.
Qed.

(** The three flags of the result, and nothing else in that dict: a flag is
    set exactly when some segment of the file has the marker of the flag
    (APP1, APP0, APP14) and a payload that starts with its tag
    ("Exif\0\0", "JFIF\0", "Adobe"); no segment clears a flag. *)
Theorem parse_jpeg_flags (data : list byte) (sof : SofData.t)
    (tables : list QuantTable.t) (flags : gmap string bool) :
  parse_jpeg data = Ok (sof, tables, flags) ->
  flags
  = flags_of (flagged 0xFFE1 exif_tag (scan_segments data))
      (flagged 0xFFE0 jfif_tag (scan_segments data))
      (flagged 0xFFEE adobe_tag (scan_segments data)).
Proof.
  intros Hparse.
  destruct (parse_jpeg_state _ _ _ _ Hparse) as (st & Hrun & _ & _ & ->).
  assert (Hinit : info_flags initial_state = flags_of false false false) by reflexivity.
  apply (decode_all_flags _ _ _ _ _ _ Hinit Hrun).
Qed.

Lemma parse_jpeg_flags_witness :
  <["hasJFIF" := true]> (info_flags initial_state) = flags_of false true false.
Proof.
  apply (parse_jpeg_flags truncated_file (SofData.Build 8 100 100 3) []).
  vm_compute. reflexivity.
Defined.

(** ** The text of a digest, and the bytes it is the digest of *)

Lemma length_hex (lower : bool) (bs : list Z) :
  String.length (hashlib.hex lower bs) = (2 * length bs)%nat.
Proof. induction bs as [| b bs IH]; simpl in *; lia. Qed.

Lemma upper_hex_digit_char (v : Z) :
  0 <= v < 16 ->
  In (hashlib.hex_digit false v) (list_ascii_of_string "0123456789ABCDEF").
Proof.
  intros Hv.
  assert (Hcases : v = 0 \/ v = 1 \/ v = 2 \/ v = 3 \/ v = 4 \/ v = 5 \/ v = 6 \/ v = 7
                   \/ v = 8 \/ v = 9 \/ v = 10 \/ v = 11 \/ v = 12 \/ v = 13 \/ v = 14
                   \/ v = 15) by lia.
  repeat (destruct Hcases as [-> | Hcases]; [simpl; tauto |]). subst v. simpl. tauto.
Qed.

Lemma upper_hex_chars (bs : list Z) :
  Forall (fun b => 0 <= b < 256) bs -> upper_hex_text (hashlib.hex false bs).
Proof.
  unfold upper_hex_text. induction 1 as [| b bs Hb _ IH]; intros c Hc.
  - destruct Hc.
  - cbn [hashlib.hex list_ascii_of_string] in Hc. destruct Hc as [<- | [<- | Hc]].
    + apply upper_hex_digit_char.
      split; [apply Z.div_pos; lia | apply Z.div_lt_upper_bound; lia].
    + apply upper_hex_digit_char. apply Z.mod_pos_bound. lia.
    + now apply IH.
Qed.

(** Whenever the digest of a table is defined, it is a text of 32
    characters among 0-9 and A-F, the form of the digests of the signature
    file. *)
Theorem md5_text (table : QuantTable.t) (digest : string) :
  QuantTable.md5 table = Ok digest ->
  String.length digest = 32%nat /\ upper_hex_text digest.
Proof.
  unfold QuantTable.md5. intros H. inv_bind H as (raw & _ & H). injection H as <-.
  unfold hashlib.hexdigest. rewrite upper_hex by apply digest_range.
  split.
  - now rewrite length_hex, length_digest.
  - apply upper_hex_chars, digest_range.
Qed.

Lemma md5_text_witness :
  String.length "03864632648E248F36683D21F92FE764" = 32%nat
  /\ upper_hex_text "03864632648E248F36683D21F92FE764".
Proof.
  apply (md5_text (flat_table 0 16)). vm_compute. reflexivity.
Defined.

Lemma single_byte_of_byte (b : byte) : single_byte (int_of_byte b) = b.
Proof.
  unfold single_byte. pose proof (int_of_byte_range b).
  rewrite Z.mod_small by lia. unfold int_of_byte. rewrite N2Z.id.
  now rewrite Byte.of_to_N.
Qed.

Lemma bytes_of_ints_of_bytes (chunk : list byte) :
  bytes_of_ints (map int_of_byte chunk) = Ok chunk.
Proof.
  unfold bytes_of_ints. induction chunk as [| b chunk IH]; simpl.
  - reflexivity.
  - rewrite byte_of_int_of_byte. cbn [result_bind]. rewrite IH. reflexivity.
Qed.

Lemma pack_H_big_endian (hi lo : byte) :
  pack_H (Z.lor (Z.shiftl (int_of_byte hi) 8) (int_of_byte lo)) = Ok [hi; lo].
Proof.
  pose proof (int_of_byte_range hi). pose proof (int_of_byte_range lo).
  rewrite big_endian_value, pack_H_in_range by lia. unfold big_endian_16.
  replace ((256 * int_of_byte hi + int_of_byte lo) / 256) with (int_of_byte hi)
    by (apply Z.div_unique with (r := int_of_byte lo); lia).
  rewrite single_byte_of_byte. do 3 f_equal.
  unfold single_byte at 1.
  replace ((256 * int_of_byte hi + int_of_byte lo) mod 256) with (int_of_byte lo)
    by (apply Z.mod_unique with (q := int_of_byte hi); lia).
  rewrite <- (Z.mod_small (int_of_byte lo) 256) by lia.
  apply single_byte_of_byte.
Qed.

(** [struct.pack] undoes [struct.unpack]: packing the 16-bit values read
    from an even number of bytes gives these bytes back. *)
Lemma pack_unpack_H_list (n : nat) (chunk : list byte) :
  length chunk = (2 * n)%nat ->
  (let* packed := result_map pack_H (unpack_H_list chunk) in Ok (concat packed))
  = Ok chunk.
Proof.
  revert chunk. induction n as [| n IH]; intros chunk Hlen.
  - destruct chunk; [reflexivity | discriminate].
  - destruct chunk as [| hi [| lo chunk]]; simpl in Hlen; try lia.
    cbn [unpack_H_list result_map]. rewrite pack_H_big_endian. cbn [result_bind].
    specialize (IH chunk ltac:(lia)).
    destruct (result_map pack_H (unpack_H_list chunk)) as [packed | e |];
      cbn [result_bind] in *; try discriminate.
    injection IH as <-. reflexivity.
Qed.

(** The digest of a table read from a DQT payload is the MD5 of the
    coefficient bytes exactly as they stand in the file, after the header
    byte: decoding the coefficients and encoding them again for the hash
    loses nothing, at either precision. *)
Theorem decoded_table_digest (segment : list byte) (offset : nat)
    (table : QuantTable.t) (offset' : nat) :
  read_table segment offset = Ok (table, offset') ->
  QuantTable.md5 table
  = Ok (upper (hashlib.hexdigest (slice segment (offset + 1) offset'))).
Proof.
  intros Hr.
  destruct (segment !! offset) as [header |] eqn:Hh.
  - rewrite (read_table_unfold _ _ _ Hh) in Hr. cbv zeta in Hr.
    destruct (Nat.eqb_spec
                (length (slice segment (offset + 1) (offset + 1 + table_bytes header)))
                (table_bytes header)) as [Hlen | Hne]; cbn [negb] in Hr;
      [| discriminate].
    injection Hr as <- <-. unfold QuantTable.md5.
    cbn [QuantTable.values QuantTable.precision].
    unfold table_bytes, truthy in Hlen |- *.
    destruct (Z.shiftr (int_of_byte header) 4 =? 0); cbn [negb] in Hlen |- *.
    + rewrite bytes_of_ints_of_bytes. reflexivity.
    + rewrite (pack_unpack_H_list 64 _ Hlen). reflexivity.
  - unfold read_table, byte_at in Hr. rewrite Hh in Hr. discriminate.
Qed.

Lemma decoded_table_digest_witness :
  QuantTable.md5 (QuantTable.Build 1 1 (repeat 258 64))
  = Ok (upper (hashlib.hexdigest
                 (slice (x00 :: x11 :: concat (repeat [x01; x02] 64)) (1 + 1) 130))).
Proof.
  apply (decoded_table_digest (x00 :: x11 :: concat (repeat [x01; x02] 64)) 1).
  vm_compute. reflexivity.
Defined.

(** ** Well-formed streams *)

Lemma skip_fill_loop_run (n : nat) (c : byte) (rest : list byte) (offset : nat) :
  (int_of_byte c =? 0xFF) = false ->
  skip_fill_loop (repeat xff n ++ c :: rest) offset = (offset + n)%nat.
Proof.
  intros Hc. revert offset. induction n as [| n IH]; intros offset; simpl.
  - rewrite Hc. lia.
  - rewrite IH. lia.
Qed.

Lemma skip_fill_loop_all (n : nat) (offset : nat) :
  skip_fill_loop (repeat xff n) offset = (offset + n)%nat.
Proof.
  revert offset. induction n as [| n IH]; intros offset; simpl.
  - lia.
  - rewrite IH. lia.
Qed.

Lemma skip_fill_app (pre rest : list byte) :
  skip_fill (pre ++ rest) (length pre) = skip_fill_loop rest (length pre).
Proof. unfold skip_fill. now rewrite drop_app_length. Qed.

(** The start of a turn of the loop at fill bytes followed by a marker
    code. *)
Lemma marker_head (pre : list byte) (fill : nat) (code : byte) (rest : list byte) :
  (int_of_byte code =? 0xFF) = false ->
  (pre ++ repeat xff (S fill) ++ code :: rest) !! length pre = Some xff
  /\ skip_fill (pre ++ repeat xff (S fill) ++ code :: rest) (length pre)
     = (length pre + S fill)%nat
  /\ (pre ++ repeat xff (S fill) ++ code :: rest) !! (length pre + S fill)%nat
     = Some code.
Proof.
  intros Hc. split; [| split].
  - rewrite lookup_app_r by lia. now rewrite Nat.sub_diag.
  - rewrite skip_fill_app. now apply skip_fill_loop_run.
  - rewrite lookup_app_r by lia.
    replace (length pre + S fill - length pre)%nat with (length (repeat xff (S fill)))
      by (rewrite repeat_length; lia).
    rewrite lookup_app_r by lia. now rewrite Nat.sub_diag.
Qed.

Lemma nth_app_shift {A : Type} (pre rest : list A) (k : nat) (d : A) :
  nth (length pre + k) (pre ++ rest) d = nth k rest d.
Proof. induction pre as [| x pre IH]; [reflexivity | exact IH]. Qed.

Lemma int_of_single_byte (v : Z) : int_of_byte (single_byte v) = v mod 256.
Proof.
  unfold single_byte, int_of_byte.
  assert (Hr : 0 <= v mod 256 < 256) by (apply Z.mod_pos_bound; lia).
  destruct (Byte.of_N (Z.to_N (v mod 256))) as [b |] eqn:Hb.
  - apply Byte.to_of_N in Hb. simpl. rewrite Hb. lia.
  - apply Byte.of_N_None_iff in Hb. lia.
Qed.

(** Lines 193-197 on a segment that is all there: the payload and the
    offset after it. *)
Lemma read_segment_whole (head payload rest : list byte) :
  Z.of_nat (length payload) + 2 < 65536 ->
  read_segment
    (head ++ big_endian_16 (Z.of_nat (length payload) + 2) ++ payload ++ rest)
    (length head)
  = Ok (payload, (length head + 2 + length payload)%nat).
Proof.
  intros Hlen. set (n := Z.of_nat (length payload) + 2).
  set (data := head ++ big_endian_16 n ++ payload ++ rest).
  assert (Hdata : length data = (length head + (2 + (length payload + length rest)))%nat).
  { subst data. rewrite !length_app. reflexivity. }
  assert (Hdeclared : declared_length data (length head) = n).
  { unfold declared_length. subst data.
    rewrite <- (Nat.add_0_r (length head)) at 1.
    replace (S (length head)) with (length head + 1)%nat by lia.
    rewrite !nth_app_shift.
    cbn [big_endian_16 app nth].
    rewrite big_endian_value, !int_of_single_byte.
    rewrite (Z.mod_small (n / 256)).
    - pose proof (Z.div_mod n 256). lia.
    - subst n. split; [apply Z.div_pos; lia | apply Z.div_lt_upper_bound; lia]. }
  destruct (read_segment_cases data (length head)) as (_ & _ & Hok).
  rewrite Hok by (rewrite ?Hdeclared; subst n; lia). rewrite Hdeclared.
  replace (length head + Z.to_nat n)%nat with (length head + 2 + length payload)%nat
    by (subst n; lia).
  do 2 f_equal. subst data. unfold slice.
  replace (length head + 2 + length payload - (length head + 2))%nat
    with (length payload) by lia.
  rewrite drop_app_add' by reflexivity.
  change (drop 2 (big_endian_16 n ++ payload ++ rest)) with (payload ++ rest).
  now rewrite take_app_length.
Qed.

(** What one turn of the loop finds at a well-formed item. *)
Lemma scan_marker_item (pre : list byte) (item : stream_item) (rest : list byte) :
  well_formed_item item = true ->
  scan_marker (pre ++ item_bytes item ++ rest) (length pre)
  = Ok match item with
       | SegmentItem _ code payload =>
           Segment (marker_of code) payload (length pre + length (item_bytes item))
       | _ => Skip (length pre + length (item_bytes item))
       end.
Proof.
  destruct item as [fill code payload | fill code | b]; cbn [well_formed_item item_bytes];
    rewrite ?andb_true_iff, ?negb_true_iff.
  - intros [[[Hff Heoi] Hstand] Hlen]. apply Z.ltb_lt in Hlen.
    rewrite <- app_assoc. cbn [app]. rewrite <- app_assoc.
    destruct (marker_head pre fill code
                (big_endian_16 (Z.of_nat (length payload) + 2) ++ payload ++ rest) Hff)
      as (H0 & Hskip & Hcode).
    rewrite (scan_marker_segment _ _ _ code H0 Hskip Hcode);
      [| now apply Z.eqb_neq | exact Hstand].
    pose proof (read_segment_whole (pre ++ repeat xff (S fill) ++ [code]) payload rest Hlen)
      as Hseg.
    rewrite <- !app_assoc in Hseg. cbn [app] in Hseg.
    rewrite !length_app, repeat_length in Hseg. cbn [length] in Hseg.
    replace (length pre + S fill + 1)%nat with (length pre + (S fill + 1))%nat by lia.
    rewrite Hseg. cbn [result_bind]. do 2 f_equal.
    rewrite length_app, repeat_length. cbn [length]. rewrite length_app.
    cbn [big_endian_16 length]. lia.
  - intros [Hff Hstand].
    rewrite <- app_assoc. cbn [app].
    destruct (marker_head pre fill code rest Hff) as (H0 & Hskip & Hcode).
    unfold scan_marker, byte_at. rewrite H0. cbn [result_bind].
    change (int_of_byte xff =? 0xFF) with true. cbn [negb]. rewrite Hskip.
    pose proof (lookup_lt_Some _ _ _ Hcode) as Hlt.
    destruct (Nat.leb_spec (length (pre ++ repeat xff (S fill) ++ code :: rest))
                (length pre + S fill)); [lia |].
    rewrite Hcode. cbn [result_bind]. fold (marker_of code). rewrite Hstand.
    assert (Hne : (marker_of code =? 0xFFD9) = false).
    { unfold standalone in Hstand. apply Z.eqb_neq. lia. }
    rewrite Hne. do 2 f_equal. rewrite length_app, repeat_length. cbn [length]. lia.
  - intros Hb. unfold scan_marker, byte_at. cbn [app].
    rewrite lookup_app_r by lia. rewrite Nat.sub_diag. cbn [lookup list_lookup result_bind].
    rewrite Hb. reflexivity.
Qed.

Lemma scan_marker_end (pre ending : list byte) :
  stream_end ending -> ending <> [] ->
  scan_marker (pre ++ ending) (length pre) = Ok Stop.
Proof.
  intros [fill [-> | [junk ->]]] Hne.
  - destruct fill as [| fill]; [contradiction |].
    unfold scan_marker, byte_at. rewrite lookup_app_r by lia. rewrite Nat.sub_diag.
    cbn [repeat lookup list_lookup result_bind].
    change (int_of_byte xff =? 0xFF) with true. cbn [negb].
    rewrite skip_fill_app.
    change (xff :: repeat xff fill) with (repeat xff (S fill)).
    rewrite skip_fill_loop_all, length_app, repeat_length.
    destruct (Nat.leb_spec (length pre + S fill) (length pre + S fill)); [reflexivity | lia].
  - assert (Hd9 : (int_of_byte xd9 =? 0xFF) = false) by reflexivity.
    destruct (marker_head pre fill xd9 junk Hd9) as (H0 & Hskip & Hcode).
    unfold scan_marker, byte_at. rewrite H0. cbn [result_bind].
    change (int_of_byte xff =? 0xFF) with true. cbn [negb]. rewrite Hskip.
    pose proof (lookup_lt_Some _ _ _ Hcode) as Hlt.
    destruct (Nat.leb_spec (length (pre ++ repeat xff (S fill) ++ xd9 :: junk))
                (length pre + S fill)); [lia |].
    rewrite Hcode. reflexivity.
Qed.

Lemma item_bytes_nonempty (item : stream_item) : (0 < length (item_bytes item))%nat.
Proof.
  destruct item; cbn [item_bytes]; rewrite ?length_app; cbn [length repeat]; lia.
Qed.

(** The two loops of the scanner over a well-formed stream. *)
Lemma scan_stream_loop (items : list stream_item) (pre ending : list byte) (fuel : nat) :
  Forall (fun item => well_formed_item item = true) items ->
  stream_end ending ->
  (length (stream_bytes items ++ ending) <= fuel)%nat ->
  scan_segments_loop fuel (pre ++ stream_bytes items ++ ending) (length pre)
  = item_segments items
  /\ scan_end_loop fuel (pre ++ stream_bytes items ++ ending) (length pre) = Ok tt.
Proof.
  intros Hwf Hend. revert pre fuel.
  induction Hwf as [| item items Hitem _ IH]; intros pre fuel Hfuel.
  - cbn [stream_bytes map concat app item_segments flat_map] in *.
    rewrite scan_segments_loop_eq, scan_end_loop_eq, length_app.
    destruct (Nat.ltb_spec (length pre) (length pre + length ending)) as [Hlt | Hge];
      [| split; reflexivity].
    destruct fuel as [| fuel]; [lia |].
    rewrite (scan_marker_end pre ending Hend) by (intros ->; simpl in Hlt; lia).
    split; reflexivity.
  - unfold stream_bytes in *. cbn [map concat item_segments flat_map] in *.
    rewrite <- app_assoc in *.
    pose proof (item_bytes_nonempty item) as Hpos.
    rewrite scan_segments_loop_eq, scan_end_loop_eq.
    rewrite !length_app in *.
    destruct (Nat.ltb_spec (length pre)
                (length pre
                 + (length (item_bytes item)
                    + (length (concat (map item_bytes items)) + length ending))));
      [| lia].
    destruct fuel as [| fuel]; [lia |].
    rewrite (scan_marker_item pre item _ Hitem).
    specialize (IH (pre ++ item_bytes item) fuel).
    rewrite <- app_assoc, !length_app in IH.
    destruct IH as [IHsegs IHend]; [lia |].
    destruct item; rewrite IHsegs, IHend; split; reflexivity.
Qed.

(** The scanner reads a well-formed stream back: from SOI, segments,
    standalone markers, fill bytes and stray bytes, ended by EOI or by the
    end of the data, it hands exactly the segments to the decoders, each
    with its whole payload, in stream order, and meets no error; what
    follows EOI is not read. *)
Theorem scan_stream (items : list stream_item) (ending : list byte) :
  Forall (fun item => well_formed_item item = true) items ->
  stream_end ending ->
  scan_segments (soi ++ stream_bytes items ++ ending) = item_segments items
  /\ scan_end (soi ++ stream_bytes items ++ ending) = Ok tt.
Proof.
  intros Hwf Hend. unfold scan_segments, scan_end.
  apply (scan_stream_loop items soi ending _ Hwf Hend).
  rewrite !length_app. cbn [length soi]. lia.
Qed.

Lemma parse_loop_stream (items : list stream_item) (ending : list byte) :
  Forall (fun item => well_formed_item item = true) items ->
  stream_end ending ->
  parse_loop (length (soi ++ stream_bytes items ++ ending))
    (soi ++ stream_bytes items ++ ending) 2 initial_state
  = decode_all (item_segments items) initial_state.
Proof.
  intros Hwf Hend. rewrite parse_loop_factors.
  destruct (scan_stream_loop items soi ending
              (length (soi ++ stream_bytes items ++ ending)) Hwf Hend) as [Hsegs Hscan].
  { rewrite !length_app. cbn [length soi]. lia. }
  cbn [length soi] in Hsegs, Hscan. rewrite Hsegs, Hscan.
  now destruct (decode_all _ _).
Qed.

Lemma soi_test_passes (rest : list byte) :
  (2 <= length rest)%nat ->
  (length (soi ++ rest) <? 4)%nat || negb (bytes_eqb (slice (soi ++ rest) 0 2) soi)
  = false.
Proof.
  intros Hlen. rewrite length_app. cbn [length soi].
  destruct (Nat.ltb_spec (2 + length rest) 4); [lia | reflexivity].
Qed.

Lemma scan_stream_witness :
  scan_segments (soi ++ stream_bytes sample_items ++ eoi ++ [x01; x02])
  = item_segments sample_items
  /\ scan_end (soi ++ stream_bytes sample_items ++ eoi ++ [x01; x02]) = Ok tt.
Proof.
  apply (scan_stream sample_items (eoi ++ [x01; x02])).
  - repeat constructor.
  - exists 0%nat. right. exists [x01; x02]. reflexivity.
Defined.



(** Nothing after EOI is read: on a well-formed stream closed by EOI, the
    result does not depend on the bytes that follow. *)
Theorem bytes_after_eoi_ignored (items : list stream_item) (junk : list byte) :
  Forall (fun item => well_formed_item item = true) items ->
  parse_jpeg (soi ++ stream_bytes items ++ eoi ++ junk)
  = parse_jpeg (soi ++ stream_bytes items ++ eoi).
Proof.
  intros Hwf. unfold parse_jpeg.
  rewrite (parse_loop_stream items (eoi ++ junk) Hwf)
    by (exists 0%nat; right; exists junk; reflexivity).
  rewrite (parse_loop_stream items eoi Hwf)
    by (exists 0%nat; right; exists []; reflexivity).
  rewrite !soi_test_passes; [reflexivity | |];
    rewrite !length_app; cbn [length eoi]; lia.
Qed.

Lemma bytes_after_eoi_ignored_witness :
  parse_jpeg (soi ++ stream_bytes sample_items ++ eoi ++ [x01; x02])
  = parse_jpeg (soi ++ stream_bytes sample_items ++ eoi).
Proof.
  apply (bytes_after_eoi_ignored sample_items [x01; x02]). repeat constructor.
Defined.

(** ** The outcome of [summarize] *)



(** The loops end on every input: each turn of the marker loop of
    [parse_jpeg] moves the offset forward and each turn of the DQT loop
    consumes a table, so that as many turns as the data has bytes are
    enough; [parse_jpeg] and [summarize] return or raise, whatever the
    bytes and the signatures. *)
Theorem summarize_total (path : string) (data : list byte)
    (signatures : list Signature.t) :
  parse_jpeg data <> OutOfFuel /\ summarize path data signatures <> OutOfFuel.
Proof.
  split; [apply parse_jpeg_returns |].
  destruct (parse_jpeg data) as [[[sof tables] flags] | e |] eqn:Hparse.
  - destruct (summarize_defined path data signatures sof tables flags Hparse)
      as (result & digests & Hsum & _).
    rewrite Hsum. discriminate.
  - unfold summarize. rewrite Hparse. discriminate.
  - now destruct (parse_jpeg_returns data).
Qed.

Lemma ascending_distinct_ids (tables : list QuantTable.t) :
  ascending_ids tables ->
  NoDup (map QuantTable.table_id tables) ->
  StronglySorted Z.lt (map QuantTable.table_id tables).
Proof.
  unfold ascending_ids. induction 1 as [| table tables Hsorted IH Hall]; simpl;
    intros Hnodup.
  - constructor.
  - apply NoDup_cons in Hnodup. destruct Hnodup as [Hfresh Hnodup].
    constructor; [now apply IH |].
    apply List.Forall_forall. intros k Hk. apply in_map_iff in Hk.
    destruct Hk as (other & <- & Hin).
    rewrite List.Forall_forall in Hall. specialize (Hall other Hin).
    assert (QuantTable.table_id other <> QuantTable.table_id table).
    { intros Heq. apply Hfresh. rewrite <- Heq.
      apply list_elem_of_In, in_map_iff. now exists other. }
    lia.
Qed.

Lemma summary_rows (ordered : list QuantTable.t) (rows : list TableSummary) :
  result_map
    (fun table =>
       let* digest := QuantTable.md5 table in
       Ok {| ts_id := QuantTable.table_id table;
             ts_precision := QuantTable.precision table;
             ts_values := QuantTable.values table;
             ts_md5 := digest |})
    ordered = Ok rows ->
  Forall2
    (fun row table =>
       ts_id row = QuantTable.table_id table
       /\ ts_precision row = QuantTable.precision table
       /\ ts_values row = QuantTable.values table
       /\ QuantTable.md5 table = Ok (ts_md5 row))
    rows ordered.
Proof.
  revert rows. induction ordered as [| table ordered IH]; intros rows Hrows.
  - injection Hrows as <-. constructor.
  - simpl in Hrows. inv_bind Hrows as (row & Hrow & Hrows).
    inv_bind Hrows as (rows' & Hrows' & Hrows). injection Hrows as <-.
    inv_bind Hrow as (digest & Hdigest & Hrow). injection Hrow as <-.
    constructor; [| now apply IH]. simpl. auto.
Qed.

Lemma summary_digests (ordered : list QuantTable.t) (rows : list TableSummary) :
  result_map
    (fun table =>
       let* digest := QuantTable.md5 table in
       Ok {| ts_id := QuantTable.table_id table;
             ts_precision := QuantTable.precision table;
             ts_values := QuantTable.values table;
             ts_md5 := digest |})
    ordered = Ok rows ->
  result_map QuantTable.md5 ordered = Ok (map ts_md5 rows).
Proof.
  revert rows. induction ordered as [| table ordered IH]; intros rows Hrows.
  - injection Hrows as <-. reflexivity.
  - simpl in Hrows. inv_bind Hrows as (row & Hrow & Hrows).
    inv_bind Hrows as (rows' & Hrows' & Hrows). injection Hrows as <-.
    inv_bind Hrow as (digest & Hdigest & Hrow). injection Hrow as <-.
    simpl. rewrite Hdigest, (IH rows' Hrows'). reflexivity.
Qed.

(** The report of [summarize] on a parsed file: the size is the number of
    bytes, the frame data and the flags are those of [parse_jpeg], and the
    tables are listed one row per table, in strictly increasing order of
    identifier, each with its precision, coefficients and digest; the
    matches are those of the lookup over the digest pairs made of the
    digests of the rows, and the verdict is that of the tamper heuristic
    for the flags and these matches. *)
Theorem summarize_report (path : string) (data : list byte)
    (signatures : list Signature.t) (result : Summary) :
  summarize path data signatures = Ok result ->
  exists sof tables flags,
    parse_jpeg data = Ok (sof, tables, flags)
    /\ file_path result = path
    /\ file_sizeBytes result = length data
    /\ SofData.Build (jpeg_precision result) (jpeg_height result) (jpeg_width result)
         (jpeg_componentCount result) = sof
    /\ jpeg_flags result = flags
    /\ Forall2
         (fun row table =>
            ts_id row = QuantTable.table_id table
            /\ ts_precision row = QuantTable.precision table
            /\ ts_values row = QuantTable.values table
            /\ QuantTable.md5 table = Ok (ts_md5 row))
         (quantizationTables result) (sorted_by_id tables)
    /\ Permutation (sorted_by_id tables) tables
    /\ StronglySorted Z.lt (map QuantTable.table_id (sorted_by_id tables))
    /\ signatureMatches result
       = find_signature_matches signatures
           (pairs_of_digests (map ts_md5 (quantizationTables result)))
    /\ tamperingAssessment result = assess_tampering flags (signatureMatches result).
Proof.
  unfold summarize. intros H.
  inv_bind H as ([[sof tables] flags] & Hparse & H).
  inv_bind H as (pairs & Hpairs & H). inv_bind H as (rows & Hrows & H).
  injection H as <-. exists sof, tables, flags. cbn.
  split; [exact Hparse |]. split; [reflexivity |]. split; [reflexivity |].
  split; [now destruct sof |]. split; [reflexivity |].
  split; [now apply summary_rows |].
  split; [apply sorted_by_id_perm |].
  split.
  - apply ascending_distinct_ids; [apply sorted_by_id_ascending |].
    pose proof (parse_jpeg_tables_nodup _ _ _ _ Hparse) as Hnodup.
    eapply NoDup_Permutation_proper; [| exact Hnodup].
    apply Permutation_map, sorted_by_id_perm.
  - split; [| reflexivity].
    rewrite (quant_hash_pairs_spec _ _ (summary_digests _ _ Hrows)) in Hpairs.
    now injection Hpairs as <-.
Qed.

Lemma summarize_report_witness :
  match summarize "a.jpg" two_frames_file [sample_signature] with
  | Ok result => file_sizeBytes result = length two_frames_file
  | _ => False
  end.
Proof.
  destruct (summarize "a.jpg" two_frames_file [sample_signature]) as [result | e |]
    eqn:Hsum.
  - destruct (summarize_report _ _ _ _ Hsum) as (sof & tables & flags & _ & _ & Hsize & _).
    exact Hsize.
  - vm_compute in Hsum. discriminate.
  - vm_compute in Hsum. discriminate.
Defined.

(** ** The signature file *)

Lemma append_nil (b : string) : (EmptyString ++ b)%string = b.
Proof. reflexivity. Qed.

Lemma append_cons (c : ascii) (a b : string) :
  (String c a ++ b)%string = String c (a ++ b)%string.
Proof. reflexivity. Qed.

Ltac push_append := repeat (rewrite append_cons || rewrite append_nil).

Lemma string_app_assoc (a b c : string) :
  ((a ++ b) ++ c)%string = (a ++ b ++ c)%string.
Proof.
  induction a as [| x a IH]; rewrite ?append_nil, ?append_cons;
    [reflexivity | f_equal; exact IH].
Qed.

Lemma string_length_app (a b : string) :
  String.length (a ++ b)%string = (String.length a + String.length b)%nat.
Proof.
  induction a as [| x a IH]; rewrite ?append_nil, ?append_cons;
    cbn [String.length Nat.add]; [reflexivity | f_equal; exact IH].
Qed.

Lemma findall_from_start (c : ascii) (s : string) :
  findall_from 0 (String c s)
  = match match_here (String c s) with
    | Some (token, len) => token :: findall_from (len - 1) s
    | None => findall_from 0 s
    end.
Proof. reflexivity. Qed.

Lemma match_here_other (c : ascii) (s : string) :
  Ascii.eqb c "_" = false -> match_here (String c s) = None.
Proof.
  intros Hc. unfold match_here.
  destruct s as [| c1 [| c2 [| c3 rest]]]; try reflexivity.
  rewrite Hc. reflexivity.
Qed.

Lemma findall_no_underscore (separator rest : string) :
  without "_" separator = true ->
  findall_from 0 (separator ++ rest)%string = findall_from 0 rest.
Proof.
  induction separator as [| c separator IH]; cbn [without];
    rewrite ?append_nil, ?append_cons; [reflexivity |].
  rewrite andb_true_iff, negb_true_iff. intros [Hc Hsep].
  rewrite findall_from_start, (match_here_other c _ Hc). now apply IH.
Qed.

Lemma findall_from_skip (a b : string) :
  findall_from (String.length a) (a ++ b)%string = findall_from 0 b.
Proof. induction a as [| c a IH]; [reflexivity | exact IH]. Qed.

Lemma until_quote_token (token rest : string) :
  without quote token = true ->
  until_quote (token ++ String quote rest)%string = Some (token, rest).
Proof.
  induction token as [| c token IH]; cbn [without];
    rewrite ?append_nil, ?append_cons; cbn [until_quote].
  - intros _. reflexivity.
  - rewrite andb_true_iff, negb_true_iff. intros [Hc Htoken].
    rewrite Hc, (IH Htoken). reflexivity.
Qed.

Lemma match_here_token (token rest : string) :
  without quote token = true ->
  match_here
    (String "_" (String "T" (String "(" (String quote
       (token ++ String quote (String ")" rest))%string))))
  = Some (token, (String.length token + 6)%nat).
Proof.
  intros Htoken. unfold match_here.
  rewrite (until_quote_token token (String ")" rest) Htoken). reflexivity.
Qed.

(** One token: the pattern matches at the start of its text, with the
    token as its group, and the search goes on after the text. *)
Lemma findall_token (token rest : string) :
  without quote token = true ->
  findall_from 0 (token_text token ++ rest)%string = token :: findall_from 0 rest.
Proof.
  intros Htoken.
  assert (Htext : (token_text token ++ rest)%string
                  = String "_" (String "T" (String "(" (String quote
                      (token ++ String quote (String ")" rest))%string)))).
  { unfold token_text. push_append. do 4 f_equal.
    rewrite string_app_assoc. now push_append. }
  rewrite Htext, findall_from_start, (match_here_token token rest Htoken).
  f_equal.
  assert (Hskip : String "T" (String "(" (String quote
                    (token ++ String quote (String ")" rest))%string))
                  = (String "T" (String "(" (String quote
                       (token ++ String quote (String ")" EmptyString))))
                     ++ rest)%string).
  { push_append. do 3 f_equal.
    rewrite string_app_assoc. now push_append. }
  rewrite Hskip.
  replace (String.length token + 6 - 1)%nat
    with (String.length
            (String "T" (String "(" (String quote
               (token ++ String quote (String ")" EmptyString))%string))))
    by (cbn [String.length]; rewrite string_length_app; cbn [String.length]; lia).
  apply findall_from_skip.
Qed.


Lemma append_nil_r (a : string) : (a ++ EmptyString)%string = a.
Proof.
  induction a as [| c a IH]; push_append; [reflexivity | f_equal; exact IH].
Qed.

Lemma findall_from_tokens_text (items : list (string * string)) (tail : string) :
  forallb plain_item items = true ->
  without "_" tail = true ->
  findall_from 0 (tokens_text items ++ tail)%string = map snd items.
Proof.
  intros Hitems Htail.
  induction items as [| [separator token] items IH]; cbn [tokens_text map snd].
  - push_append. rewrite <- (append_nil_r tail).
    now rewrite (findall_no_underscore tail EmptyString Htail).
  - cbn [forallb] in Hitems. apply andb_true_iff in Hitems.
    destruct Hitems as [Hitem Hitems]. apply andb_true_iff in Hitem.
    destruct Hitem as [Hsep Htoken]. cbn [fst snd] in Hsep, Htoken.
    rewrite !string_app_assoc.
    rewrite (findall_no_underscore separator _ Hsep), (findall_token token _ Htoken).
    f_equal. now apply IH.
Qed.

(** The tokenizer reads tokens back: from a text made of tokens written as
    in [token_text], each after a separator without underscore, between a
    lead and a tail without underscore, [findall] returns the tokens in
    order, whatever else they hold, provided none holds a double quote. *)
Theorem findall_tokens_text (lead : string) (items : list (string * string))
    (tail : string) :
  without "_" lead = true ->
  forallb plain_item items = true ->
  without "_" tail = true ->
  findall (lead ++ tokens_text items ++ tail)%string = map snd items.
Proof.
  intros Hlead Hitems Htail. unfold findall.
  rewrite (findall_no_underscore lead _ Hlead).
  now apply findall_from_tokens_text.
Qed.

Lemma findall_tokens_text_witness :
  findall ("{ " ++ tokens_text [("", "CANON"); (", ", "EOS_5D (a)"); (", 0, ", "")]
           ++ " },")%string
  = ["CANON"; "EOS_5D (a)"; ""].
Proof.
  apply (findall_tokens_text "{ " [("", "CANON"); (", ", "EOS_5D (a)"); (", 0, ", "")] " },");
    reflexivity.
Defined.

Lemma lstrip_spaces (lead s : string) :
  all_space lead = true -> lstrip (lead ++ s)%string = lstrip s.
Proof.
  induction lead as [| c lead IH]; cbn [all_space]; push_append; [reflexivity |].
  rewrite andb_true_iff. intros [Hc Hlead]. cbn [lstrip]. rewrite Hc. now apply IH.
Qed.

Lemma rstrip_cons (c : ascii) (s : string) :
  is_space c = false -> rstrip (String c s) = String c (rstrip s).
Proof. intros Hc. cbn [rstrip]. rewrite Hc. now destruct (rstrip s). Qed.

Lemma rstrip_app (a : string) (c : ascii) (b : string) :
  is_space c = false ->
  rstrip (a ++ String c b)%string = (a ++ String c (rstrip b))%string.
Proof.
  intros Hc. induction a as [| x a IH]; push_append.
  - now apply rstrip_cons.
  - cbn [rstrip]. rewrite IH. now destruct a.
Qed.

Lemma without_rstrip (c : ascii) (s : string) :
  without c s = true -> without c (rstrip s) = true.
Proof.
  induction s as [| x s IH]; cbn [without rstrip]; [reflexivity |].
  rewrite andb_true_iff. intros [Hx Hs]. specialize (IH Hs).
  destruct (rstrip s) as [| y kept].
  - destruct (is_space x); [reflexivity |]. cbn [without]. now rewrite Hx.
  - cbn [without] in *. now rewrite Hx, IH.
Qed.

Lemma rstrip_tokens_text (items : list (string * string)) (tail : string) :
  rstrip (tokens_text items ++ tail)%string = (tokens_text items ++ rstrip tail)%string.
Proof.
  induction items as [| [separator token] items IH]; cbn [tokens_text].
  - now push_append.
  - unfold token_text.
    assert (Hshape : forall rest : string,
               ((separator ++ ("_T(" ++ String quote token ++ String quote ")")
                 ++ tokens_text items) ++ rest)%string
               = ((separator ++ "_T(" ++ String quote token ++ String quote EmptyString)
                  ++ String ")" (tokens_text items ++ rest))%string).
    { intros rest.
      repeat (rewrite string_app_assoc || rewrite append_cons || rewrite append_nil).
      reflexivity. }
    rewrite !Hshape, rstrip_app by reflexivity. now rewrite IH.
Qed.

Lemma prefix_brace (s : string) : String.prefix "{" (String "{" s) = true.
Proof.
  unfold String.prefix. destruct (ascii_dec "{" "{") as [_ | Hne]; [| contradiction].
  now destruct s.
Qed.

(** A line laid out as the file has them: after leading white space, an
    opening brace, tokens and a tail without underscore.  The line is read
    as a record made of its tokens. *)
Lemma read_line_laid_out (lead : string) (items : list (string * string))
    (tail : string) :
  all_space lead = true ->
  forallb plain_item items = true ->
  without "_" tail = true ->
  read_line (lead ++ String "{" (tokens_text items ++ tail))%string
  = record_of_tokens (map snd items).
Proof.
  intros Hlead Hitems Htail. unfold read_line, strip.
  rewrite (lstrip_spaces lead _ Hlead). cbn [lstrip].
  change (is_space "{") with false. cbv iota.
  rewrite rstrip_cons by reflexivity. rewrite rstrip_tokens_text.
  rewrite prefix_brace. cbn [negb]. f_equal.
  unfold findall. rewrite findall_from_start, match_here_other by reflexivity.
  apply (findall_from_tokens_text items (rstrip tail) Hitems).
  now apply without_rstrip.
Qed.

Lemma parse_signatures_loop_acc (lines : list string) (signatures : list Signature.t) :
  parse_signatures_loop lines signatures
  = signatures ++ parse_signatures_loop lines [].
Proof.
  revert signatures. induction lines as [| line lines IH]; intros signatures;
    cbn [parse_signatures_loop].
  - now rewrite app_nil_r.
  - destruct (read_line line) as [| | sig].
    + apply IH.
    + now rewrite app_nil_r.
    + rewrite (IH (signatures ++ [sig])), (IH ([] ++ [sig])), <- app_assoc.
      reflexivity.
Qed.

Lemma parse_signatures_loop_app (before rest : list string)
    (signatures : list Signature.t) :
  forallb (fun line => negb (is_sentinel line)) before = true ->
  parse_signatures_loop (before ++ rest) signatures
  = parse_signatures_loop rest (signatures ++ flat_map line_records before).
Proof.
  unfold is_sentinel, line_records. revert signatures.
  induction before as [| line before IH]; intros signatures;
    cbn [forallb flat_map app].
  - intros _. now rewrite app_nil_r.
  - rewrite andb_true_iff, negb_true_iff. intros [Hline Hbefore].
    cbn [parse_signatures_loop].
    destruct (read_line line) as [| | sig]; try discriminate.
    + now apply IH.
    + rewrite (IH _ Hbefore), <- app_assoc. reflexivity.
Qed.



(** No record with the star as its make is ever returned: the sentinel ends
    the reading and is not a record itself. *)
Theorem parse_signatures_without_sentinel (lines : list string) (sig : Signature.t) :
  In sig (parse_signatures lines) -> Signature.make sig <> "*".
Proof.
  unfold parse_signatures. rewrite <- (app_nil_l (parse_signatures_loop lines [])).
  rewrite <- parse_signatures_loop_acc.
  assert (Hloop : forall acc,
             (forall s, In s acc -> Signature.make s <> "*") ->
             forall s, In s (parse_signatures_loop lines acc) -> Signature.make s <> "*").
  { induction lines as [| line lines IH]; intros acc Hacc; cbn [parse_signatures_loop].
    - exact Hacc.
    - destruct (read_line line) as [| | record] eqn:Hline.
      + now apply IH.
      + exact Hacc.
      + apply IH. intros s Hs. apply in_app_or in Hs. destruct Hs as [Hs | [<- | []]].
        * now apply Hacc.
        * unfold read_line, record_of_tokens in Hline.
          destruct (negb _); [discriminate |].
          destruct (_ <? _)%nat; [discriminate |].
          destruct (findall _) as [| make [| model [| notes [| hash_y [| hash_c rest]]]]];
            try discriminate.
          destruct (String.eqb_spec make "*") as [| Hne]; [discriminate |].
          injection Hline as <-. exact Hne. }
  apply Hloop. intros s [].
Qed.

Lemma parse_signatures_without_sentinel_witness :
  Signature.make (Signature.Build "A" "B" "C" "D" "E" "" "" "") <> "*".
Proof.
  apply (parse_signatures_without_sentinel
           [record_line ["A"; "B"; "C"; "D"; "E"]; record_line ["*"; "B"; "C"; "D"; "E"]]).
  left. reflexivity.
Defined.

Lemma record_of_signature_tokens (sig : Signature.t) :
  String.eqb (Signature.make sig) "*" = false ->
  record_of_tokens (signature_tokens sig) = Record sig.
Proof.
  intros Hmake. destruct sig. unfold record_of_tokens, signature_tokens.
  cbn in *. rewrite Hmake. reflexivity.
Qed.

Lemma read_record_line (sig : Signature.t) :
  plain_signature sig = true ->
  read_line (record_line (signature_tokens sig)) = Record sig.
Proof.
  unfold plain_signature. rewrite andb_true_iff, negb_true_iff. intros [Hplain Hmake].
  rewrite <- (record_of_signature_tokens sig Hmake).
  unfold record_line, signature_tokens in *.
  cbn [forallb map] in *.
  repeat match type of Hplain with
         | (_ && _) = true => apply andb_true_iff in Hplain; destruct Hplain as [? Hplain]
         end.
  match goal with
  | |- read_line ("  {" ++ tokens_text ?items ++ " },")%string = _ =>
      change ("  {" ++ tokens_text items ++ " },")%string
        with ("  " ++ String "{" (tokens_text items ++ " },"))%string;
      rewrite (read_line_laid_out "  " items " },")
  end; try reflexivity.
  unfold plain_item. cbn [forallb fst snd].
  change (without "_" " ") with true. change (without "_" ", ") with true.
  cbn [andb].
  repeat match goal with
         | H : without quote _ = true |- _ => rewrite H; clear H
         end.
  reflexivity.
Qed.

(** Writing records and reading them back: a file that holds one line per
    record, in the layout of the original, followed by a sentinel line and
    anything after it, is read as exactly these records, in order, as long
    as no field holds a double quote and no make is the star. *)
Theorem parse_signatures_round_trip (signatures : list Signature.t)
    (stop : string) (after : list string) :
  forallb plain_signature signatures = true ->
  is_sentinel stop = true ->
  parse_signatures
    (map (fun sig => record_line (signature_tokens sig)) signatures ++ stop :: after)
  = signatures.
Proof.
  intros Hplain Hstop.
  assert (Hlines : forall sig, In sig signatures ->
                               read_line (record_line (signature_tokens sig)) = Record sig).
  { intros sig Hin. apply read_record_line.
    rewrite forallb_forall in Hplain. now apply Hplain. }
  clear Hplain. unfold parse_signatures.
  rewrite parse_signatures_loop_app.
  - cbn [parse_signatures_loop app]. unfold is_sentinel in Hstop.
    destruct (read_line stop); try discriminate.
    induction signatures as [| sig signatures IH]; [reflexivity |].
    cbn [map flat_map]. unfold line_records at 1.
    rewrite (Hlines sig) by now left. cbn [app]. f_equal.
    apply IH. intros s Hs. apply Hlines. now right.
  - induction signatures as [| sig signatures IH]; [reflexivity |].
    cbn [map forallb]. unfold is_sentinel at 1.
    rewrite (Hlines sig) by now left. cbn [negb andb].
    apply IH. intros s Hs. apply Hlines. now right.
Qed.

Lemma parse_signatures_round_trip_witness :
  parse_signatures
    (map (fun sig => record_line (signature_tokens sig)) [sample_signature]
     ++ record_line ["*"; "*"; "*"; "*"; "*"] :: ["};"])
  = [sample_signature].
Proof.
  apply (parse_signatures_round_trip [sample_signature]); reflexivity.
Defined.

(** ** The verdict in terms of the file *)

Lemma get_flag_flags_of (exif jfif adobe : bool) :
  get_flag (flags_of exif jfif adobe) "hasExif" = exif
  /\ get_flag (flags_of exif jfif adobe) "hasJFIF" = jfif
  /\ get_flag (flags_of exif jfif adobe) "hasAdobe" = adobe.
Proof.
  unfold get_flag, flags_of. split; [| split].
  - now rewrite lookup_insert_eq.
  - rewrite lookup_insert_ne by discriminate. now rewrite lookup_insert_eq.
  - rewrite !lookup_insert_ne by discriminate. now rewrite lookup_insert_eq.
Qed.

(** The verdict of [summarize] read off the file: a parsed file is
    suspected exactly when no APP1 segment of it starts with the EXIF tag,
    or some APP14 segment starts with the Adobe tag, or the lookup found no
    record; the JFIF flag plays no part. *)
Theorem summarize_verdict (path : string) (data : list byte)
    (signatures : list Signature.t) (result : Summary) :
  summarize path data signatures = Ok result ->
  suspected (tamperingAssessment result)
  = negb (flagged 0xFFE1 exif_tag (scan_segments data))
    || flagged 0xFFEE adobe_tag (scan_segments data)
    || is_nil (signatureMatches result).
Proof.
  unfold summarize. intros H.
  inv_bind H as ([[sof tables] flags] & Hparse & H).
  inv_bind H as (pairs & Hpairs & H). inv_bind H as (rows & Hrows & H).
  injection H as <-. cbn [tamperingAssessment signatureMatches].
  destruct (parse_jpeg_state _ _ _ _ Hparse) as (st & Hrun & _ & _ & ->).
  assert (Hinit : info_flags initial_state = flags_of false false false) by reflexivity.
  rewrite (decode_all_flags _ _ _ _ _ _ Hinit Hrun). cbn [orb].
  unfold assess_tampering.
  destruct (get_flag_flags_of (flagged 0xFFE1 exif_tag (scan_segments data))
              (flagged 0xFFE0 jfif_tag (scan_segments data))
              (flagged 0xFFEE adobe_tag (scan_segments data))) as (-> & _ & ->).
  cbn [suspected].
  destruct (flagged 0xFFE1 exif_tag _), (flagged 0xFFEE adobe_tag _),
    (find_signature_matches signatures pairs); reflexivity.
Qed.

Lemma summarize_verdict_witness :
  match summarize "a.jpg" two_frames_file [sample_signature] with
  | Ok result => suspected (tamperingAssessment result) = true
  | _ => False
  end.
Proof.
  destruct (summarize "a.jpg" two_frames_file [sample_signature]) as [result | e |]
    eqn:Hsum.
  - rewrite (summarize_verdict _ _ _ _ Hsum). reflexivity.
  - vm_compute in Hsum. discriminate.
  - vm_compute in Hsum. discriminate.
Defined.

(** ** Composition of DQT payloads *)

(** One DQT segment that holds several tables is decoded as the same
    tables held by DQT segments of their own: when the first part of a DQT
    payload decodes to its end, decoding the whole payload is decoding the
    first part and then the rest, for the tables stored as for the error
    raised. *)
Theorem dqt_payload_split (first rest : list byte) (st : parse_state) :
  snd (parse_quant_tables first) = Ok tt ->
  decode_segment 0xFFDB (first ++ rest) st
  = let* st' := decode_segment 0xFFDB first st in decode_segment 0xFFDB rest st'.
Proof.
  intros Hfirst. unfold decode_segment. change (0xFFDB =? 0xFFDB) with true. cbv iota.
  rewrite (parse_quant_tables_app first rest Hfirst).
  destruct (parse_quant_tables first) as [tables fin].
  destruct (parse_quant_tables rest) as [tables' fin'].
  cbn [fst snd] in Hfirst |- *. subst fin. cbn [result_bind quant_tables sof_data info_flags].
  now rewrite fold_left_app.
Qed.

Lemma dqt_payload_split_witness :
  decode_segment 0xFFDB ((x00 :: repeat x10 64) ++ (x01 :: repeat x11 64)) initial_state
  = let* st' := decode_segment 0xFFDB (x00 :: repeat x10 64) initial_state in
    decode_segment 0xFFDB (x01 :: repeat x11 64) st'.
Proof.
  apply (dqt_payload_split (x00 :: repeat x10 64) (x01 :: repeat x11 64) initial_state).
  vm_compute. reflexivity.
Defined.

(** ** [read_uint16] *)

(** What [read_uint16] returns: the offset moved by two, within the data,
    and a value between 0 and 65535 of which the two bytes read are the
    big-endian form, so that [struct.pack] gives them back. *)
Theorem read_uint16_big_endian (data : list byte) (offset : nat) (value : Z)
    (offset' : nat) :
  read_uint16 data offset = Ok (value, offset') ->
  offset' = (offset + 2)%nat
  /\ (offset' <= length data)%nat
  /\ 0 <= value < 65536
  /\ pack_H value = Ok (slice data offset offset').
Proof.
  intros Hread.
  destruct (read_uint16_cases data offset) as [Hshort Hlong].
  destruct (Nat.lt_ge_cases (length data) (offset + 2)) as [Hlt | Hge].
  - rewrite (Hshort Hlt) in Hread. discriminate.
  - rewrite (Hlong Hge) in Hread. injection Hread as <- <-.
    split; [reflexivity |]. split; [exact Hge |].
    rewrite (slice_two data offset Hge). unfold declared_length.
    split; [| apply pack_H_big_endian].
    rewrite big_endian_value.
    pose proof (int_of_byte_range (nth offset data x00)).
    pose proof (int_of_byte_range (nth (S offset) data x00)). lia.
Qed.

Lemma read_uint16_big_endian_witness :
  (3 = 1 + 2)%nat
  /\ (3 <= length [x00; x12; x34])%nat
  /\ 0 <= 0x1234 < 65536
  /\ pack_H 0x1234 = Ok (slice [x00; x12; x34] 1 3).
Proof.
  apply (read_uint16_big_endian [x00; x12; x34] 1 0x1234 3). reflexivity.
Defined.
